(** * jsonrpc: a shallow embedding of the call tracker (client.go) and of the
    connection session and service registry (codec.go).

    Conventions of the embedding.
    - Go strings are byte strings: [string] (a list of [ascii]).
    - [uint32] is [N] with the wrap-around of [atomic.AddUint32] written out.
    - [json.RawMessage] / [[]byte] is [string]; the nil slice is [""].
    - A Go [error] is its text ([err.Error()]); [option string] is an
      error-or-nil result.
    - Go maps are [gmap]s; a nil map is [None] where the code tests for it.
    - The client is a state-passing program over the [Client] struct.  A
      goroutine that parks on a channel or a mutex is the [Blocked] outcome.
      Every mutex, map, channel and socket operation is also appended to a
      trace so that lock discipline can be read off an execution. *)

From stdpp Require Import gmap strings list fin_maps.
From Stdlib Require Import NArith Ascii.

Local Open Scope string_scope.
Local Open Scope list_scope.

(* ===================================================================== *)
(** ** strings.Split with a one-byte separator *)
(* ===================================================================== *)

(** [strings.Split(s, sep)] for a separator of one byte: the substrings of [s]
    between the occurrences of [sep]; a string without [sep] (the empty string
    too) gives the one-element slice holding [s] itself. *)
Fixpoint strings_Split (s : string) (sep : ascii) : list string :=
  match s with
  | EmptyString => [EmptyString]
  | String ch rest =>
      if decide (ch = sep) then EmptyString :: strings_Split rest sep
      else match strings_Split rest sep with
           | p :: ps => String ch p :: ps
           | [] => [String ch EmptyString]
           end
  end.

Definition dot : ascii := "."%char.

(** [parts[i]] for an index the code has bounds-checked before. *)
Definition index (parts : list string) (i : nat) : string := nth i parts "".

Definition is_empty (s : string) : bool := bool_decide (s = "").

(** [s] contains the byte [sep]. *)
Fixpoint contains (s : string) (sep : ascii) : bool :=
  match s with
  | EmptyString => false
  | String ch rest => bool_decide (ch = sep) || contains rest sep
  end.

(* ===================================================================== *)
(** ** Message protocol (codec.go) *)
(* ===================================================================== *)

Record Request := mkRequest {
  req_Id : N;
  req_Method : string;
  req_Param : string
}.

Record Response := mkResponse {
  resp_Id : N;
  resp_Result : string;
  resp_Error : string
}.

(** The nil [json.RawMessage]. *)
Definition nil_bytes : string := "".

(** [&Response{Error: text}]: the other fields keep their zero values. *)
Definition error_Response (text : string) : Response :=
  mkResponse 0 nil_bytes text.

(** [Request.Regular]: [None] is the nil error. *)
Definition Regular (req : Request) : option string :=
  let parts := strings_Split (req_Method req) dot in
  if negb (length parts =? 2)%nat then
    Some ("invalid method: " +:+ req_Method req)
  else if is_empty (index parts 0) then
    Some ("invalid service name: " +:+ index parts 0)
  else if is_empty (index parts 1) then
    Some ("invalid serviceMethod name: " +:+ index parts 1)
  else None.

#[global] Instance Request_eq_dec : EqDecision Request.
Proof. solve_decision. Defined.
#[global] Instance Response_eq_dec : EqDecision Response.
Proof. solve_decision. Defined.

(* ===================================================================== *)
(** ** Call tracker (client.go) *)
(* ===================================================================== *)

Definition ErrTimeout : string := "rpc call timeout".
Definition ErrClientClosed : string := "client has closed".

(** The two mutexes of [Client]: [reqMutex] (send lock) and [m] (map lock). *)
Inductive lock := ReqMutex | MapMutex.

#[global] Instance lock_eq_dec : EqDecision lock.
Proof. solve_decision. Defined.

(** What an execution does to the shared objects, in program order. *)
Inductive event :=
  | EvLock (l : lock)
  | EvUnlock (l : lock)
  | EvLookup (id : N)            (* c.calls[id] read *)
  | EvStore (id : N)             (* c.calls[id] = call *)
  | EvDelete (id : N)            (* delete(c.calls, id) *)
  | EvRange                      (* for _, call := range c.calls *)
  | EvSend (ch : N) (r : Response)   (* ch <- r *)
  | EvEncode (r : Request)       (* c.codec.encoder.Encode(r) *)
  | EvConnClose.                 (* c.conn.Close() *)

#[global] Instance event_eq_dec : EqDecision event.
Proof. solve_decision. Defined.

(** A buffered channel of [*Response]: [make(chan *Response, cap)]. *)
Record chan := mkChan {
  chan_cap : nat;
  chan_buf : list Response
}.

#[global] Instance chan_eq_dec : EqDecision chan.
Proof. solve_decision. Defined.

(** How the code of one goroutine ends when run from a state [S]. *)
Inductive outcome (S A : Type) :=
  | Done (a : A) (s : S)     (* ran to its end *)
  | Blocked (s : S).         (* parked on a channel or a mutex *)
Arguments Done {S A} a s.
Arguments Blocked {S A} s.

Section CallTracker.

(** Go values passed as [interface{}], and the two functions of
    encoding/json the tracker calls.  [json.Marshal] returns the encoding or
    an error (and then nil bytes); [json.Unmarshal data dst] returns the new
    content of the destination and the error-or-nil. *)
Context {Value : Type}.
Variable json_Marshal : Value → string + string.
Variable json_Unmarshal : string → Value → Value * option string.

(** [Call]: [done] is the address of the completion channel in the channel
    store, so that the map entry and the caller share one channel.  The
    [ctx] field is never read or written and is left out. *)
Record Call := mkCall {
  call_id : N;
  call_method : string;
  call_req : Value;
  call_done : N
}.

(** [Client].  [reqMutex] and [m] hold whether the mutex is locked.  [chans]
    is the store of channels made so far, [conn_closed] counts the calls of
    [conn.Close()], and [trace] is the log of events. *)
Record Client := mkClient {
  calls : gmap N Call;
  closing : bool;
  shutdown : bool;
  seqId : N;
  reqMutex : bool;
  m : bool;
  chans : gmap N chan;
  conn_closed : nat;
  trace : list event
}.

Definition set_calls (f : gmap N Call → gmap N Call) (c : Client) : Client :=
  mkClient (f (calls c)) (closing c) (shutdown c) (seqId c) (reqMutex c) (m c)
           (chans c) (conn_closed c) (trace c).
Definition set_shutdown (b : bool) (c : Client) : Client :=
  mkClient (calls c) (closing c) b (seqId c) (reqMutex c) (m c)
           (chans c) (conn_closed c) (trace c).
Definition set_seqId (n : N) (c : Client) : Client :=
  mkClient (calls c) (closing c) (shutdown c) n (reqMutex c) (m c)
           (chans c) (conn_closed c) (trace c).
Definition set_lock (l : lock) (b : bool) (c : Client) : Client :=
  match l with
  | ReqMutex => mkClient (calls c) (closing c) (shutdown c) (seqId c) b (m c)
                         (chans c) (conn_closed c) (trace c)
  | MapMutex => mkClient (calls c) (closing c) (shutdown c) (seqId c) (reqMutex c) b
                         (chans c) (conn_closed c) (trace c)
  end.
Definition set_chans (f : gmap N chan → gmap N chan) (c : Client) : Client :=
  mkClient (calls c) (closing c) (shutdown c) (seqId c) (reqMutex c) (m c)
           (f (chans c)) (conn_closed c) (trace c).
Definition set_conn_closed (n : nat) (c : Client) : Client :=
  mkClient (calls c) (closing c) (shutdown c) (seqId c) (reqMutex c) (m c)
           (chans c) n (trace c).
Definition log (e : event) (c : Client) : Client :=
  mkClient (calls c) (closing c) (shutdown c) (seqId c) (reqMutex c) (m c)
           (chans c) (conn_closed c) (trace c ++ [e]).

Definition held (l : lock) (c : Client) : bool :=
  match l with ReqMutex => reqMutex c | MapMutex => m c end.

(** The client as [Dial] builds it, before [go c.recv()]. *)
Definition new_Client : Client :=
  mkClient ∅ false false 0 false false ∅ 0 [].

(** *** The monad of one goroutine's code *)

Definition M (A : Type) : Type := Client → outcome Client A.

#[local] Instance M_ret : MRet M := λ A a c, Done a c.
#[local] Instance M_bind : MBind M := λ A B f ma c,
  match ma c with
  | Done a c' => f a c'
  | Blocked c' => Blocked c'
  end.

Definition gets {A} (f : Client → A) : M A := λ c, Done (f c) c.
Definition modify (f : Client → Client) : M unit := λ c, Done tt (f c).

(** [for _, x := range xs { body(x) }] *)
Fixpoint forM_ {A} (xs : list A) (body : A → M unit) : M unit :=
  match xs with
  | [] => mret tt
  | x :: rest => body x ;; forM_ rest body
  end.

(** *** Primitive operations *)

(** [mu.Lock()]: parks while the mutex is locked. *)
Definition Lock (l : lock) : M unit := λ c,
  if held l c then Blocked c else Done tt (log (EvLock l) (set_lock l true c)).

(** [mu.Unlock()]; the code only unlocks a mutex it has locked. *)
Definition Unlock (l : lock) : M unit :=
  modify (λ c, log (EvUnlock l) (set_lock l false c)).

Definition map_lookup (id : N) : M (option Call) := λ c,
  Done (calls c !! id) (log (EvLookup id) c).
Definition map_store (id : N) (call : Call) : M unit :=
  modify (λ c, log (EvStore id) (set_calls (insert id call) c)).
Definition map_delete (id : N) : M unit :=
  modify (λ c, log (EvDelete id) (set_calls (delete id) c)).
(** The values of the map in the order [range] visits them (Go leaves the
    order unspecified; the model visits in the order of [map_to_list]). *)
Definition map_range : M (list Call) := λ c,
  Done ((map_to_list (calls c)).*2) (log EvRange c).

(** [make(chan *Response, cap)] at a fresh address. *)
Definition make_chan (cap : nat) : M N := λ c,
  let ch := fresh (dom (chans c)) in
  Done ch (set_chans (insert ch (mkChan cap [])) c).

(** [ch <- r]: parks when the buffer is full (no receiver is modelled as
    waiting: a waiting receiver takes the value out of the buffer in its own
    step), and forever on a channel that does not exist. *)
Definition chan_send (ch : N) (r : Response) : M unit := λ c,
  match chans c !! ch with
  | Some q =>
      if (length (chan_buf q) <? chan_cap q)%nat then
        Done tt (log (EvSend ch r)
                   (set_chans (insert ch (mkChan (chan_cap q) (chan_buf q ++ [r]))) c))
      else Blocked c
  | None => Blocked c
  end.

(** [<-ch]: parks while the buffer is empty. *)
Definition chan_recv (ch : N) : M Response := λ c,
  match chans c !! ch with
  | Some (mkChan cap (r :: rest)) =>
      Done r (set_chans (insert ch (mkChan cap rest)) c)
  | _ => Blocked c
  end.

(** [c.codec.encoder.Encode(req)]: [wr] is what the write on the socket
    answers, the error-or-nil that [Encode] returns. *)
Definition encoder_Encode (req : Request) (wr : option string) : M (option string) := λ c,
  Done wr (log (EvEncode req) c).

(** [c.conn.Close()]; its error is dropped by the caller. *)
Definition conn_Close : M unit :=
  modify (λ c, log EvConnClose (set_conn_closed (S (conn_closed c)) c)).

(** [atomic.AddUint32(&c.seqId, 1)]: the new value, wrapping at 2^32. *)
Definition atomic_AddUint32_seqId : M N := λ c,
  let n := ((seqId c + 1) mod 2 ^ 32)%N in
  Done n (set_seqId n c).

(** *** The functions of client.go *)

(** [parseCall]: the new call, or the error. *)
Definition parseCall (method : string) (in_ : Value) : M (Call + string) :=
  let parts := strings_Split method dot in
  if negb (length parts =? 2)%nat || is_empty (index parts 0) || is_empty (index parts 1)
  then mret (inr ("invalid method '" +:+ method +:+ "'"))
  else
    id ← atomic_AddUint32_seqId;
    done ← make_chan 1;
    mret (inl (mkCall id method in_ done)).

(** [send]; [body, _ := json.Marshal(call.req)] keeps the bytes and drops the
    error. *)
Definition send (call : Call) (wr : option string) : M (option string) :=
  Lock ReqMutex ;;
  let body := match json_Marshal (call_req call) with
              | inl b => b
              | inr _ => nil_bytes
              end in
  let req := mkRequest (call_id call) (call_method call) body in
  err ← encoder_Encode req wr;
  Unlock ReqMutex ;;
  mret err.

(** [do]: registers the call and writes its request. *)
Definition Client_do (call : Call) (wr : option string) : M unit :=
  Lock MapMutex ;;
  closing ← gets closing;
  shutdown ← gets shutdown;
  if closing || shutdown then
    Unlock MapMutex ;;
    chan_send (call_done call) (error_Response ErrClientClosed)
  else
    map_store (call_id call) call ;;
    Unlock MapMutex ;;
    err ← send call wr;
    match err with
    | Some e =>
        Lock MapMutex ;;
        map_delete (call_id call) ;;
        Unlock MapMutex ;;
        chan_send (call_done call) (error_Response e)
    | None => mret tt
    end.

(** One turn of the loop of [recv] after [Decode] gave [resp]. *)
Definition recv_step (resp : Response) : M unit :=
  found ← map_lookup (resp_Id resp);
  match found with
  | None => mret tt                       (* continue *)
  | Some call =>
      chan_send (call_done call) resp ;;
      Lock MapMutex ;;
      map_delete (resp_Id resp) ;;
      Unlock MapMutex
  end.

(** The code of [recv] after the loop: [err] is the text of the error that
    [Decode] returned. *)
Definition recv_shutdown (err : string) : M unit :=
  Lock ReqMutex ;;
  Lock MapMutex ;;
  modify (set_shutdown true) ;;
  cs ← map_range;
  forM_ cs (λ call, chan_send (call_done call) (error_Response err)) ;;
  Unlock MapMutex ;;
  Unlock ReqMutex.

(** [recv]: the decoder gives the responses [decoded], one per turn, and then
    fails with [err]. *)
Definition recv (decoded : list Response) (err : string) : M unit :=
  forM_ decoded recv_step ;;
  recv_shutdown err.

(** What [Call] and [CallWithTimeout] do with the response they received;
    [out] is [None] for a nil destination, and the result holds the error and
    the content of the destination afterwards. *)
Definition Call_reply (resp : Response) (out : option Value) : option string * option Value :=
  if negb (is_empty (resp_Error resp)) then (Some (resp_Error resp), out)
  else match out with
       | None => (None, None)
       | Some dst =>
           let '(dst', err) := json_Unmarshal (resp_Result resp) dst in
           (err, Some dst')
       end.

(** [Call].  [go c.do(newCall)] starts a goroutine; [sched newCall] is what
    that goroutine and the others (the receive loop) do before the caller is
    resumed at [<-newCall.done]. *)
Definition Client_Call (method : string) (in_ : Value) (out : option Value)
    (sched : Call → M unit) : M (option string * option Value) :=
  parsed ← parseCall method in_;
  match parsed with
  | inr err => mret (Some err, out)
  | inl newCall =>
      sched newCall ;;
      resp ← chan_recv (call_done newCall);
      mret (Call_reply resp out)
  end.

(** [select] over [time.After(timeout)] and [newCall.done]: [fired] says
    whether the timer has fired when the caller is resumed, and [pick_timer]
    is the choice Go makes when both cases are ready.  [None] is the timer
    case. *)
Definition select_timeout (ch : N) (fired pick_timer : bool) : M (option Response) := λ c,
  match chans c !! ch with
  | Some (mkChan cap (r :: rest)) =>
      if fired && pick_timer then Done None c
      else Done (Some r) (set_chans (insert ch (mkChan cap rest)) c)
  | _ => if fired then Done None c else Blocked c
  end.

(** [CallWithTimeout], with [sched] as in [Client_Call]. *)
Definition Client_CallWithTimeout (method : string) (in_ : Value) (out : option Value)
    (fired pick_timer : bool) (sched : Call → M unit) : M (option string * option Value) :=
  parsed ← parseCall method in_;
  match parsed with
  | inr err => mret (Some err, out)
  | inl newCall =>
      sched newCall ;;
      sel ← select_timeout (call_done newCall) fired pick_timer;
      match sel with
      | None => mret (Some ErrTimeout, out)
      | Some resp => mret (Call_reply resp out)
      end
  end.

(** [Close]. *)
Definition Close : M unit :=
  Lock MapMutex ;;
  shutdown ← gets shutdown;
  closing ← gets closing;
  if shutdown || closing then Unlock MapMutex
  else
    conn_Close ;;
    Unlock MapMutex.

(** A schedule for [Client_Call] and [Client_CallWithTimeout]: the goroutine
    of [do] runs to its end, its write on the socket answering [wr], and then
    the receive loop takes one turn for each of the responses [decoded]. *)
Definition do_then_recv (wr : option string) (decoded : list Response)
    (call : Call) : M unit :=
  Client_do call wr ;;
  forM_ decoded recv_step.

(** *** Lock discipline read off a trace *)

(** Replays a trace from the given lock state and checks that every access
    to [c.calls] happens with the map lock held. *)
Fixpoint map_guarded (held_m : bool) (tr : list event) : bool :=
  match tr with
  | [] => true
  | EvLock MapMutex :: rest => map_guarded true rest
  | EvUnlock MapMutex :: rest => map_guarded false rest
  | (EvLookup _ | EvStore _ | EvDelete _ | EvRange) :: rest =>
      held_m && map_guarded held_m rest
  | _ :: rest => map_guarded held_m rest
  end.

(** Checks that the send lock is never taken while the map lock is held:
    whenever both are held, the send lock was taken first. *)
Fixpoint send_before_map (held_m : bool) (tr : list event) : bool :=
  match tr with
  | [] => true
  | EvLock MapMutex :: rest => send_before_map true rest
  | EvUnlock MapMutex :: rest => send_before_map false rest
  | EvLock ReqMutex :: rest => negb held_m && send_before_map held_m rest
  | _ :: rest => send_before_map held_m rest
  end.

(** The events an execution appended to the trace. *)
Definition new_events (c c' : Client) : list event :=
  drop (length (trace c)) (trace c').

(** The state an execution stops in, at its end or where it parks. *)
Definition outcome_state {A} (o : outcome Client A) : Client :=
  match o with Done _ c => c | Blocked c => c end.

(** Every call in [c.calls] has a channel of its own, made with room for one
    response and still empty. *)
Definition calls_ready (c : Client) : bool :=
  let dones := call_done <$> (map_to_list (calls c)).*2 in
  bool_decide (NoDup dones)
  && forallb (λ ch, bool_decide (chans c !! ch = Some (mkChan 1 []))) dones.

(** The channel store after [r] was put in the channel of each call of [cs]. *)
Definition delivered (r : Response) (cs : list Call) (chs : gmap N chan) : gmap N chan :=
  foldl (λ chs call, <[call_done call := mkChan 1 [r]]> chs) chs cs.

End CallTracker.

Arguments Call : clear implicits.
Arguments Client : clear implicits.
Arguments M : clear implicits.

(* ===================================================================== *)
(** ** Service registry and connection session (codec.go) *)
(* ===================================================================== *)

Definition NoExportedMethod : string := "no exported method".

(** [reflect.Kind], the pointer kind apart. *)
Inductive base_kind :=
  | KBool | KInt | KUint32 | KFloat64 | KString | KStruct | KInterface
  | KSlice | KMap | KFunc | KArray | KChan.

Inductive kind := Ptr | Base (k : base_kind).

(** [reflect.Type] as far as the registry inspects it: kind, [Name()],
    [PkgPath()] and, for a pointer type, [Elem()]. *)
Inductive rtype :=
  | TPtr (name pkgPath : string) (elem : rtype)
  | TBase (k : base_kind) (name pkgPath : string).

#[global] Instance base_kind_eq_dec : EqDecision base_kind.
Proof. solve_decision. Defined.
#[global] Instance kind_eq_dec : EqDecision kind.
Proof. solve_decision. Defined.
#[global] Instance rtype_eq_dec : EqDecision rtype.
Proof. solve_decision. Defined.

Definition type_Kind (t : rtype) : kind :=
  match t with TPtr _ _ _ => Ptr | TBase k _ _ => Base k end.
Definition type_Name (t : rtype) : string :=
  match t with TPtr n _ _ => n | TBase _ n _ => n end.
Definition type_PkgPath (t : rtype) : string :=
  match t with TPtr _ p _ => p | TBase _ _ p => p end.
(** [t.Elem()]; [None] where reflect panics (the kinds other than pointer that
    have an element type are not told apart). *)
Definition type_Elem (t : rtype) : option rtype :=
  match t with TPtr _ _ e => Some e | TBase _ _ _ => None end.

(** [reflect.TypeOf(( *error)(nil)).Elem()]: the predeclared interface
    [error]. *)
Definition typeOfError : rtype := TBase KInterface "error" "".

Section Registry.

Context {Value : Type}.
Variable json_Marshal : Value → string + string.
Variable json_Unmarshal : string → Value → Value * option string.
(** [reflect.New(t)]: the zero value of [t] behind the new pointer. *)
Variable reflect_Zero : rtype → Value.
(** [utf8.DecodeRuneInString] (the rune only) and [unicode.IsUpper]. *)
Variable utf8_DecodeRuneInString : string → N.
Variable unicode_IsUpper : N → bool.

(** [reflect.Method]: [In] and [Out] are the parameter and result types of
    [method.Type] (the receiver is [In(0)]).  [Func] is
    [method.Func.Call([]reflect.Value{recv, in, out})] for a method of the
    calling convention: the error-or-nil it returns and what it left behind
    the out pointer. *)
Record Method := mkMethod {
  Name : string;
  PkgPath : string;
  In : list rtype;
  Out : list rtype;
  Func : Value → Value → Value → option string * Value
}.

(** The object given to [Register]: [reflect.TypeOf(receiver)], the methods
    [recvType.Method(0)], ... in order, and [reflect.ValueOf(receiver)]. *)
Record Receiver := mkReceiver {
  recv_Type : rtype;
  recv_Methods : list Method;
  recv_Value : Value
}.

Record serviceMethod := mkServiceMethod {
  method : Method;
  inType : rtype;
  outType : rtype
}.

Record service := mkService {
  receiverType : rtype;
  receiverValue : Value;
  methodMap : gmap string serviceMethod
}.

(** [Server]; the listener takes no part in dispatch and is left out.  A nil
    [serviceMap] is [None]. *)
Record Server := mkServer {
  Addr : string;
  serviceMap : option (gmap string service)
}.

Definition NewServer (addr : string) : Server := mkServer addr None.

(** [v, ok := mp[key]] on a map that may be nil. *)
Definition nilable_lookup {A} (mp : option (gmap string A)) (key : string) : option A :=
  match mp with
  | Some mp' => mp' !! key
  | None => None
  end.

Definition isExported (name : string) : bool :=
  unicode_IsUpper (utf8_DecodeRuneInString name).

Fixpoint isExportedOrBuiltinType (t : rtype) : bool :=
  match t with
  | TPtr _ _ e => isExportedOrBuiltinType e
  | TBase _ name pkg => isExported name || is_empty pkg
  end.

(** [reflect.Indirect(recvValue).Type()]: the pointee type of a pointer
    receiver, the type itself otherwise. *)
Definition Indirect_Type (t : rtype) : rtype :=
  match t with TPtr _ _ e => e | TBase _ _ _ => t end.

(** The body of the loop of [Register] for one method; every [continue]
    leaves the method map as it is. *)
Definition Register_method (mm : gmap string serviceMethod) (mth : Method)
    : gmap string serviceMethod :=
  if negb (is_empty (PkgPath mth)) then mm
  else match In mth with
  | [_; inT; outT] =>
      if negb (isExportedOrBuiltinType inT) then mm
      else if negb (bool_decide (type_Kind outT = Ptr)) then mm
      else if negb (isExportedOrBuiltinType outT) then mm
      else match Out mth with
      | [res] =>
          if negb (bool_decide (res = typeOfError)) then mm
          else <[Name mth := mkServiceMethod mth inT outT]> mm
      | _ => mm
      end
  | _ => mm
  end.

(** [Register]: the error-or-nil and the server afterwards. *)
Definition Register (s : Server) (receiver : Receiver) : option string * Server :=
  let recvType := recv_Type receiver in
  let recvValue := recv_Value receiver in
  let serviceName := type_Name (Indirect_Type recvType) in
  if is_empty serviceName then (Some "invalid service name", s)
  else
    let newService :=
      mkService recvType recvValue (foldl Register_method ∅ (recv_Methods receiver)) in
    if (size (methodMap newService) <=? 0)%nat then (Some NoExportedMethod, s)
    else
      let mp := match serviceMap s with Some mp => mp | None => ∅ end in
      (None, mkServer (Addr s) (Some (<[serviceName := newService]> mp))).

Definition getService (s : Server) (serviceName : string) : service + string :=
  match nilable_lookup (serviceMap s) serviceName with
  | None => inr ("serviceName '" +:+ serviceName +:+ "' not exists")
  | Some svc => inl svc
  end.

Definition service_getMethod (svc : service) (methodName : string) : serviceMethod + string :=
  match methodMap svc !! methodName with
  | None => inr ("methodName '" +:+ methodName +:+ "' not exists")
  | Some svcMethod => inl svcMethod
  end.

(** [Server.getMethod]: the three named results [_service], [_serviceMethod]
    and [err] as they stand at the [return] taken. *)
Definition Server_getMethod (s : Server) (method : string)
    : option service * option serviceMethod * option string :=
  let parts := strings_Split method dot in
  if negb (length parts =? 2)%nat then
    (None, None, Some ("invalid method(" +:+ method +:+ ")"))
  else
    let serviceName := index parts 0 in
    let serviceMethodName := index parts 1 in
    match nilable_lookup (serviceMap s) serviceName with
    | None => (None, None, Some ("service '" +:+ serviceName +:+ "' not found"))
    | Some _service =>
        match methodMap _service !! serviceMethodName with
        | Some _ =>
            (Some _service, None,
             Some ("serviceMethod '" +:+ serviceName +:+ "' not found in service '"
                   +:+ serviceMethodName +:+ "'"))
        | None => (Some _service, None, None)
        end
    end.

(** [Connection]: the server, the responses written on the socket so far and
    whether the socket has been closed. *)
Record Connection := mkConnection {
  conn_s : Server;
  conn_sent : list Response;
  conn_c_closed : bool
}.

(** [conn.codec.encoder.Encode(resp)], its error dropped. *)
Definition write_Response (conn : Connection) (resp : Response) : Connection :=
  mkConnection (conn_s conn) (conn_sent conn ++ [resp]) (conn_c_closed conn).

Definition replyError (conn : Connection) (id : N) (err : string) : Connection :=
  write_Response conn (mkResponse id nil_bytes err).

Definition replyResult (conn : Connection) (id : N) (result : Value) : Connection :=
  let resultBytes := match json_Marshal result with
                     | inl b => b
                     | inr _ => nil_bytes
                     end in
  write_Response conn (mkResponse id resultBytes "").

(** [Connection.do]; [None] is a panic inside reflect. *)
Definition Connection_do (conn : Connection) (req : Request) : option Connection :=
  match Regular req with
  | Some err => Some (replyError conn (req_Id req) err)
  | None =>
      let parts := strings_Split (req_Method req) dot in
      match getService (conn_s conn) (index parts 0) with
      | inr err => Some (replyError conn (req_Id req) err)
      | inl svc =>
          match service_getMethod svc (index parts 1) with
          | inr err => Some (replyError conn (req_Id req) err)
          | inl mthd =>
              let inParam := reflect_Zero (inType mthd) in
              (* err = json.Unmarshal(...): assigned and never read *)
              let '(inParam, _) := json_Unmarshal (req_Param req) inParam in
              match type_Elem (outType mthd) with
              | None => None
              | Some outElem =>
                  let outParam := reflect_Zero outElem in
                  let '(errInter, outParam) :=
                    Func (method mthd) (receiverValue svc) inParam outParam in
                  match errInter with
                  | Some e => Some (replyError conn (req_Id req) e)
                  | None => Some (replyResult conn (req_Id req) outParam)
                  end
              end
          end
      end
  end.

(** [Connection.Serve]: the decoder gives the requests [decoded] and then
    fails; the deferred [conn.c.Close()] runs on return. *)
Fixpoint Serve_loop (conn : Connection) (decoded : list Request) : option Connection :=
  match decoded with
  | [] => Some conn
  | req :: rest =>
      match Connection_do conn req with
      | Some conn' => Serve_loop conn' rest
      | None => None
      end
  end.


(** The calling convention in the words of the specification: an externally
    visible method with exactly one input parameter and one output parameter
    beyond the receiver, the output parameter a pointer, both parameter types
    externally visible or built in, and exactly one result, of the error
    type. *)
Definition matches_convention (mth : Method) : bool :=
  is_empty (PkgPath mth)
  && bool_decide (length (In mth) = 3%nat)
  && isExportedOrBuiltinType (nth 1 (In mth) typeOfError)
  && bool_decide (type_Kind (nth 2 (In mth) typeOfError) = Ptr)
  && isExportedOrBuiltinType (nth 2 (In mth) typeOfError)
  && bool_decide (Out mth = [typeOfError]).

End Registry.

Arguments Method : clear implicits.
Arguments Receiver : clear implicits.
Arguments serviceMethod : clear implicits.
Arguments service : clear implicits.
Arguments Server : clear implicits.
Arguments Connection : clear implicits.

(* ===================================================================== *)
(** ** Definitions following the specification's words *)
(* ===================================================================== *)

(** A method name of the form ["Service.Method"]: two non-empty parts without
    a dot, joined by one dot. *)
Definition two_parts (method : string) : Prop :=
  ∃ a b, method = a +:+ String dot b ∧ a ≠ "" ∧ b ≠ "" ∧
         contains a dot = false ∧ contains b dot = false.

(* ===================================================================== *)
(** ** A small concrete world for the examples *)
(* ===================================================================== *)

(** Values are their own JSON text and every destination is an [int].
    [Marshal] fails on the value ["chan"] (a Go channel cannot be encoded);
    [Unmarshal] accepts the non-empty strings of digits only and leaves the
    destination alone on an error. *)
Module Sample.

Definition Value : Type := string.

Definition Marshal (v : Value) : string + string :=
  if bool_decide (v = "chan") then inr "json: unsupported type: chan int" else inl v.

Fixpoint all_digits (s : string) : bool :=
  match s with
  | EmptyString => true
  | String ch rest =>
      (48 <=? N_of_ascii ch)%N && (N_of_ascii ch <=? 57)%N && all_digits rest
  end.

Definition Unmarshal (data : string) (dst : Value) : Value * option string :=
  if is_empty data then (dst, Some "unexpected end of JSON input")
  else if all_digits data then (data, None)
  else (dst, Some "json: cannot unmarshal value into Go value of type int").

Definition Zero (t : rtype) : Value := "0".

(** Runes of one byte only; U+FFFD for the empty string. *)
Definition DecodeRune (s : string) : N :=
  match s with
  | EmptyString => 65533%N
  | String ch _ => N_of_ascii ch
  end.

Definition IsUpper (r : N) : bool := (65 <=? r)%N && (r <=? 90)%N.

Definition t_int : rtype := TBase KInt "int" "".
Definition t_string : rtype := TBase KString "string" "".
Definition t_Arith : rtype := TBase KStruct "Arith" "main".
Definition t_Idle : rtype := TBase KStruct "Idle" "main".

(** [func (a *Arith) Describe() string] *)
Definition Describe (recvT : rtype) : Method Value :=
  mkMethod "Describe" "" [recvT] [t_string] (λ _ _ out, (None, out)).
(** [func (a *Arith) Fail(in int, out *int) error { return errors.New("") }] *)
Definition Fail : Method Value :=
  mkMethod "Fail" "" [TPtr "" "" t_Arith; t_int; TPtr "" "" t_int] [typeOfError]
           (λ _ _ out, (Some "", out)).
(** [... Reject(in int, out *int) error { return errors.New("negative input") }] *)
Definition Reject : Method Value :=
  mkMethod "Reject" "" [TPtr "" "" t_Arith; t_int; TPtr "" "" t_int] [typeOfError]
           (λ _ _ out, (Some "negative input", out)).
(** [... Same(in int, out *int) error { *out = in; return nil }] *)
Definition Same : Method Value :=
  mkMethod "Same" "" [TPtr "" "" t_Arith; t_int; TPtr "" "" t_int] [typeOfError]
           (λ _ in_ _, (None, in_)).

(** [&Arith{}] and [&Idle{}]; [Idle] has no method of the calling convention. *)
Definition arith : Receiver Value :=
  mkReceiver (TPtr "" "" t_Arith)
             [Describe (TPtr "" "" t_Arith); Fail; Reject; Same] "{}".
Definition idle : Receiver Value :=
  mkReceiver (TPtr "" "" t_Idle) [Describe (TPtr "" "" t_Idle)] "{}".

(** A server with [Arith] registered, and a connection accepted on it. *)
Definition server : Server Value :=
  (Register DecodeRune IsUpper (NewServer ":8080") arith).2.
Definition connection : Connection Value := mkConnection server [] false.

(** The service that [Register] installs for [arith]. *)
Definition arith_service : service Value :=
  mkService (TPtr "" "" t_Arith) "{}"
            (foldl (Register_method DecodeRune IsUpper) ∅ (recv_Methods arith)).

(** A call in flight: id 1, its channel at address 0, empty. *)
Definition call1 : Call Value := mkCall 1 "Arith.Same" "7" 0.
Definition client1 : Client Value :=
  mkClient {[1%N := call1]} false false 1 false false
           {[0%N := mkChan 1 []]} 0 [].

(** The client after [parseCall "Arith.Same" "7"] on a new client, and after
    [do] has then registered the call and written its request. *)
Definition client_parsed : Client Value :=
  Eval vm_compute in outcome_state (parseCall "Arith.Same" "7" new_Client).
Definition client_sent : Client Value :=
  Eval vm_compute in
    outcome_state (do_then_recv Marshal None [] call1 client_parsed).

(** A call whose input cannot be encoded. *)
Definition call_chan : Call Value := mkCall 1 "Arith.Same" "chan" 0.

End Sample.

(* ===================================================================== *)
(** ** The operations of the tracker and the servers [Register] builds *)
(* ===================================================================== *)

(** [strings.Count(s, sep)] for a separator of one byte. *)
Fixpoint strings_Count (s : string) (sep : ascii) : nat :=
  match s with
  | EmptyString => 0%nat
  | String ch rest =>
      if decide (ch = sep) then S (strings_Count rest sep)
      else strings_Count rest sep
  end.

(** [strings.Join(parts, sep)] for a separator of one byte. *)
Fixpoint strings_Join (parts : list string) (sep : ascii) : string :=
  match parts with
  | [] => ""
  | [p] => p
  | p :: rest => p +:+ String sep (strings_Join rest sep)
  end.

(** The result of an execution dropped, its end or parking kept. *)
Definition void {S A} (o : outcome S A) : outcome S unit :=
  match o with
  | Done _ s => Done tt s
  | Blocked s => Blocked s
  end.

Section TrackerOps.

Context {Value : Type}.
Variable json_Marshal : Value → string + string.

(** The pieces of code of client.go that run on the shared [Client], each
    with the inputs it takes from its caller or from the socket. *)
Inductive tracker_op :=
  | OpParseCall (method : string) (in_ : Value)
  | OpSend (call : Call Value) (wr : option string)
  | OpDo (call : Call Value) (wr : option string)
  | OpRecvStep (resp : Response)
  | OpRecvShutdown (err : string)
  | OpRecv (decoded : list Response) (err : string)
  | OpClose.

Definition run_op (op : tracker_op) (c : Client Value) : outcome (Client Value) unit :=
  match op with
  | OpParseCall method in_ => void (parseCall method in_ c)
  | OpSend call wr => void (send json_Marshal call wr c)
  | OpDo call wr => Client_do json_Marshal call wr c
  | OpRecvStep resp => recv_step resp c
  | OpRecvShutdown err => recv_shutdown err c
  | OpRecv decoded err => recv decoded err c
  | OpClose => Close c
  end.

(** The operations that are not, and do not contain, a turn of the receive
    loop. *)
Definition not_recv_turn (op : tracker_op) : bool :=
  match op with
  | OpRecvStep _ => false
  | OpRecv decoded _ => bool_decide (decoded = [])
  | _ => true
  end.

(** [c'] is [c] after some operations that only add: the [closing] flag is
    as it was, [shutdown] is not cleared, the socket is not reopened, the
    trace is extended, and every channel made before is still there with its
    capacity, holding the responses it held before any new one. *)
Definition only_grows (c c' : Client Value) : Prop :=
  closing c' = closing c ∧
  (shutdown c = true → shutdown c' = true) ∧
  (conn_closed c ≤ conn_closed c')%nat ∧
  trace c `prefix_of` trace c' ∧
  ∀ ch q, chans c !! ch = Some q →
    ∃ q', chans c' !! ch = Some q' ∧ chan_cap q' = chan_cap q ∧
          chan_buf q `prefix_of` chan_buf q'.

(** A piece of code after which the client has only grown, wherever it
    stops. *)
Definition grows {A} (ma : M Value A) : Prop :=
  ∀ c, only_grows c (outcome_state (ma c)).

End TrackerOps.

Arguments tracker_op : clear implicits.

Section BuiltServers.

Context {Value : Type}.
Variable DecodeRune : string → N.
Variable IsUpper : N → bool.

(** The servers a program can build: [NewServer] followed by any number of
    calls of [Register], whatever they return. *)
Inductive built : Server Value → Prop :=
  | built_NewServer (addr : string) : built (NewServer addr)
  | built_Register (s : Server Value) (receiver : Receiver Value) :
      built s → built (Register DecodeRune IsUpper s receiver).2.

(** The entry [Register] makes in the method map for a method it keeps. *)
Definition entry_of (mth : Method Value) : serviceMethod Value :=
  mkServiceMethod mth (nth 1 (In mth) typeOfError) (nth 2 (In mth) typeOfError).


End BuiltServers.

(** More of the concrete world: a second call under the id of [call1], a
    client with both channels made, a client whose receive loop has ended,
    and a run of requests for a session. *)
Module Sample2.

Definition call1b : Call Sample.Value := mkCall 1 "Arith.Reject" "3" 1.

Definition client2 : Client Sample.Value :=
  mkClient {[1%N := Sample.call1]} false false 1 false false
           {[0%N := mkChan 1 []; 1%N := mkChan 1 []]} 0 [].

Definition call2 : Call Sample.Value := mkCall 2 "Arith.Reject" "3" 1.
Definition client_parsed2 : Client Sample.Value :=
  Eval vm_compute in
    outcome_state (parseCall "Arith.Reject" "3" Sample.client_parsed).

Definition client_shut : Client Sample.Value :=
  Eval vm_compute in outcome_state (recv [] "EOF" new_Client).


End Sample2.

(* ===================================================================== *)
(** ** Facts about [strings_Split] *)
(* ===================================================================== *)

Section SplitFacts.

Variable sep : ascii.

Lemma strings_Split_nonempty (s : string) :
  ∃ p ps, strings_Split s sep = p :: ps.
Proof.
  destruct s as [|ch rest]; simpl; [by eauto|].
  case_decide; [by eauto|].
  destruct (strings_Split rest sep); eauto.
Qed.

(** One part: the string has no separator. *)
Lemma strings_Split_one (s b : string) :
  strings_Split s sep = [b] ↔ s = b ∧ contains s sep = false.
Proof.
  revert b. induction s as [|ch rest IH]; intros b; simpl.
  - split; [intros [= <-]; done | intros [<- _]; done].
  - case_decide as Hch.
    + subst ch. rewrite bool_decide_eq_true_2 by done. simpl. split.
      * intros [= <- Hnil].
        destruct (strings_Split_nonempty rest) as (p & ps & Hp). congruence.
      * intros [_ ?]; discriminate.
    + rewrite bool_decide_eq_false_2 by done. simpl.
      destruct (strings_Split_nonempty rest) as (p & ps & Hp). rewrite Hp.
      split.
      * intros [= <- ->]. apply IH in Hp as [-> ?]. done.
      * intros [<- Hc]. destruct (IH rest) as [_ IH2].
        rewrite IH2 in Hp by done. by injection Hp as <- <-.
Qed.

(** Two parts: one separator, between the two parts. *)
Lemma strings_Split_two (s a b : string) :
  strings_Split s sep = [a; b] ↔
  s = a +:+ String sep b ∧ contains a sep = false ∧ contains b sep = false.
Proof.
  revert a. induction s as [|ch rest IH]; intros a; simpl.
  - split; [discriminate|]. intros [Hs _]. destruct a; discriminate.
  - case_decide as Hch.
    + subst ch. split.
      * intros [= <- Hrest]. apply strings_Split_one in Hrest as [-> ?]. done.
      * intros (Hs & Ha & Hb). destruct a as [|ch' a'].
        -- simpl in Hs. injection Hs as ->.
           f_equal. apply strings_Split_one. done.
        -- simpl in Hs, Ha. injection Hs as <- _.
           rewrite bool_decide_eq_true_2 in Ha by done. discriminate.
    + destruct (strings_Split_nonempty rest) as (p & ps & Hp). rewrite Hp.
      split.
      * intros [= <- ->]. apply IH in Hp as (-> & ? & ?). simpl.
        rewrite bool_decide_eq_false_2 by done. done.
      * intros (Hs & Ha & Hb). destruct a as [|ch' a'].
        -- simpl in Hs. injection Hs as -> _. done.
        -- simpl in Hs, Ha. injection Hs as <- ->.
           apply orb_false_iff in Ha as [_ Ha].
           destruct (IH a') as [_ IH2]. rewrite IH2 in Hp by done.
           by injection Hp as <- <-.
Qed.

End SplitFacts.

(* ===================================================================== *)
(** ** Method-name validation *)
(* ===================================================================== *)

(** Unfolds the monad's operations so that a program applied to a state
    computes. *)
Ltac run_M :=
  unfold mbind, mret, M_bind, M_ret, gets, modify in *; simpl in *.

Section Validation.

Context {Value : Type}.

Lemma two_parts_split (method : string) :
  two_parts method ↔
  ∃ a b, strings_Split method dot = [a; b] ∧ a ≠ "" ∧ b ≠ "".
Proof.
  unfold two_parts. split.
  - intros (a & b & Hm & Ha & Hb & Hca & Hcb). exists a, b.
    split; [|done]. apply strings_Split_two. done.
  - intros (a & b & Hs & Ha & Hb). exists a, b.
    apply strings_Split_two in Hs as (? & ? & ?). done.
Qed.

Lemma Regular_accepts (req : Request) :
  Regular req = None ↔ two_parts (req_Method req).
Proof.
  rewrite two_parts_split. unfold Regular, is_empty, index.
  destruct (strings_Split (req_Method req) dot) as [|a [|b [|x l]]]; simpl;
    try (split; [discriminate | by intros (? & ? & [=] & _)]).
  repeat case_bool_decide; simplify_eq/=;
    try (split; [discriminate | by intros (? & ? & [= <- <-] & ? & ?)]).
  split; [|done]. intros _. eauto.
Qed.

Lemma parseCall_accepts (method : string) (in_ : Value) (c : Client Value) :
  (∃ call c', parseCall method in_ c = Done (inl call) c') ↔ two_parts method.
Proof.
  rewrite two_parts_split. unfold parseCall, is_empty, index.
  destruct (strings_Split method dot) as [|a [|b [|x l]]]; simpl;
    try (split; [by intros (? & ? & [=]) | by intros (? & ? & [=] & _)]).
  repeat case_bool_decide; simplify_eq/=; run_M;
    try (split; [by intros (? & ? & [=]) | by intros (? & ? & [= <- <-] & ? & ?)]).
  split; [intros _; by eauto|]. intros _. by eauto.
Qed.

Lemma parseCall_rejects (method : string) (in_ : Value) (c : Client Value) :
  (∃ err, parseCall method in_ c = Done (inr err) c) ↔ ¬ two_parts method.
Proof.
  rewrite <- (parseCall_accepts method in_ c). unfold parseCall.
  destruct (_ || _ || _); run_M.
  - split; [|by eauto]. intros _ (? & ? & [=]).
  - split; [by intros (? & [=])|]. intros []. by eauto.
Qed.

(** C7. For every method-name string the client's validation ([parseCall])
    and the server's ([Request.Regular]) take the same decision: each accepts
    exactly the strings made of two non-empty parts without a dot, joined by
    one dot, and each rejects every other string with an error. *)
Theorem C7_validation_agrees (method : string) (in_ : Value) (c : Client Value)
    (id : N) (param : string) :
  let client_accepts := ∃ call c', parseCall method in_ c = Done (inl call) c' in
  let client_rejects := ∃ err, parseCall method in_ c = Done (inr err) c in
  let server_accepts := Regular (mkRequest id method param) = None in
  let server_rejects := ∃ err, Regular (mkRequest id method param) = Some err in
  (client_accepts ↔ two_parts method) ∧
  (server_accepts ↔ two_parts method) ∧
  (client_rejects ↔ ¬ two_parts method) ∧
  (server_rejects ↔ ¬ two_parts method) ∧
  (client_accepts ↔ server_accepts) ∧
  (client_rejects ↔ server_rejects).
Proof.
  intros client_accepts client_rejects server_accepts server_rejects.
  assert (Hca : client_accepts ↔ two_parts method) by apply parseCall_accepts.
  assert (Hsa : server_accepts ↔ two_parts method)
    by apply (Regular_accepts (mkRequest id method param)).
  assert (Hcr : client_rejects ↔ ¬ two_parts method) by apply parseCall_rejects.
  assert (Hsr : server_rejects ↔ ¬ two_parts method).
  { unfold server_rejects. rewrite <- Hsa. unfold server_accepts.
    clear. destruct (Regular _) as [err|].
    - split; [by intros _ [=] | by eauto].
    - split; [by intros (? & [=]) | done]. }
  repeat split; try tauto.
Qed.

End Validation.

(* ===================================================================== *)
(** ** Service registry *)
(* ===================================================================== *)

Section RegistryFacts.

Context {Value : Type}.
(** [utf8.DecodeRuneInString] and [unicode.IsUpper], as in [Registry]. *)
Variable DecodeRune : string → N.
Variable IsUpper : N → bool.

(** The chain of [continue]s in the loop of [Register] keeps exactly the
    methods of the calling convention. *)
Lemma Register_method_convention (mm : gmap string (serviceMethod Value))
    (mth : Method Value) :
  Register_method DecodeRune IsUpper mm mth =
  if matches_convention DecodeRune IsUpper mth
  then <[Name mth := mkServiceMethod mth (nth 1 (In mth) typeOfError)
                                     (nth 2 (In mth) typeOfError)]> mm
  else mm.
Proof.
  unfold Register_method, matches_convention.
  destruct (is_empty (PkgPath mth)); simpl; [|done].
  destruct (In mth) as [|t0 [|inT [|outT [|x l]]]]; simpl; try done.
  destruct (isExportedOrBuiltinType _ _ inT); simpl; [|done].
  destruct (bool_decide (type_Kind outT = Ptr)); simpl; [|done].
  destruct (isExportedOrBuiltinType _ _ outT); simpl; [|done].
  destruct (Out mth) as [|res [|y l]]; simpl; try done.
  - case_bool_decide as Hres; simpl.
    + subst res. by rewrite bool_decide_eq_true_2.
    + rewrite bool_decide_eq_false_2; [done|]. by intros [= ->].
  - by rewrite bool_decide_eq_false_2.
Qed.

Lemma Register_none_qualify (mm : gmap string (serviceMethod Value))
    (mths : list (Method Value)) :
  Forall (λ mth, matches_convention DecodeRune IsUpper mth = false) mths →
  foldl (Register_method DecodeRune IsUpper) mm mths = mm.
Proof.
  intros Hall. revert mm. induction Hall as [|mth mths Hm _ IH]; intros mm.
  - done.
  - simpl. rewrite Register_method_convention, Hm. apply IH.
Qed.

(** C8. A candidate with a non-empty type name none of whose methods matches
    the calling convention: [Register] returns the no-exported-method error
    and the server is the one it was given, so a lookup of that service name
    that failed before still fails with the not-found error. *)
Theorem C8_Register_zero_methods (s : Server Value) (receiver : Receiver Value) :
  let serviceName := type_Name (Indirect_Type (recv_Type receiver)) in
  serviceName ≠ "" →
  Forall (λ mth, matches_convention DecodeRune IsUpper mth = false) (recv_Methods receiver) →
  Register DecodeRune IsUpper s receiver = (Some NoExportedMethod, s) ∧
  ∀ name, getService (Register DecodeRune IsUpper s receiver).2 name = getService s name ∧
    (nilable_lookup (serviceMap s) name = None →
     getService (Register DecodeRune IsUpper s receiver).2 name
     = inr ("serviceName '" +:+ name +:+ "' not exists")).
Proof.
  intros serviceName Hname Hnone.
  assert (Hreg : Register DecodeRune IsUpper s receiver = (Some NoExportedMethod, s)).
  { unfold Register. fold serviceName. unfold is_empty.
    rewrite bool_decide_eq_false_2 by done. simpl.
    rewrite (Register_none_qualify ∅ _ Hnone). by rewrite map_size_empty. }
  split; [done|]. intros name. rewrite Hreg. simpl. split; [done|].
  intros Hlk. unfold getService. by rewrite Hlk.
Qed.

(** C4. [Server.getMethod] on a name of two parts whose service is
    registered: it returns the not-found error exactly when the method is in
    the service's method map, and no error (and a nil method) exactly when it
    is absent; [service.getMethod], which dispatch uses, is the other way
    round: an error exactly when the method is absent. *)
Theorem C4_Server_getMethod_inverted (s : Server Value) (method sn mn : string)
    (svc : service Value) :
  strings_Split method dot = [sn; mn] →
  nilable_lookup (serviceMap s) sn = Some svc →
  (is_Some (methodMap svc !! mn) ↔
   Server_getMethod s method =
     (Some svc, None,
      Some ("serviceMethod '" +:+ sn +:+ "' not found in service '" +:+ mn +:+ "'"))) ∧
  (methodMap svc !! mn = None ↔ Server_getMethod s method = (Some svc, None, None)) ∧
  (is_Some (methodMap svc !! mn) ↔ ∃ sm, service_getMethod svc mn = inl sm) ∧
  (methodMap svc !! mn = None ↔ ∃ err, service_getMethod svc mn = inr err).
Proof.
  intros Hsplit Hsvc. unfold Server_getMethod, service_getMethod.
  rewrite Hsplit. simpl. unfold index. simpl. rewrite Hsvc.
  destruct (methodMap svc !! mn) as [sm|] eqn:Hm.
  - split_and!.
    + split; [done | by eauto].
    + split; intros H; [discriminate H | by injection H].
    + split; [by eauto | done].
    + split; [intros H; discriminate H | by intros [err H]].
  - split_and!.
    + split; [by intros [x H] | intros H; by injection H].
    + done.
    + split; [by intros [x H] | by intros [x H]].
    + split; [by eauto | done].
Qed.

End RegistryFacts.

(* ===================================================================== *)
(** ** Connection session and the reply path of a call *)
(* ===================================================================== *)

Section SessionFacts.

Context {Value : Type}.
Variable json_Marshal : Value → string + string.
Variable json_Unmarshal : string → Value → Value * option string.
Variable reflect_Zero : rtype → Value.

Lemma Regular_two_parts (req : Request) (sn mn : string) :
  strings_Split (req_Method req) dot = [sn; mn] → sn ≠ "" → mn ≠ "" →
  Regular req = None.
Proof.
  intros Hsplit Hsn Hmn. apply Regular_accepts, two_parts_split. eauto.
Qed.

(** [Call] hands the response it receives on the channel to [Call_reply]. *)
Lemma Client_Call_receives (method : string) (in_ : Value) (out : option Value)
    (sched : Call Value → M Value unit) (c c1 c2 : Client Value)
    (newCall : Call Value) (cap : nat) (resp : Response) (rest : list Response) :
  parseCall method in_ c = Done (inl newCall) c1 →
  sched newCall c1 = Done tt c2 →
  chans c2 !! call_done newCall = Some (mkChan cap (resp :: rest)) →
  Client_Call json_Unmarshal method in_ out sched c =
  Done (Call_reply json_Unmarshal resp out)
       (set_chans (insert (call_done newCall) (mkChan cap rest)) c2).
Proof.
  intros Hparse Hsched Hch. unfold Client_Call. run_M.
  rewrite Hparse, Hsched. unfold chan_recv. by rewrite Hch.
Qed.

(** C6 (amended). A method that returns a non-nil error: the server writes a
    Response with the error field set to the error's text and the result
    field empty.  When that text is not empty, a [Call] that receives this
    Response returns an error with exactly that text, and the destination
    holds what it held before. *)
Theorem C6_error_outcome (conn : Connection Value) (req : Request)
    (sn mn : string) (svc : service Value) (mthd : serviceMethod Value)
    (outElem : rtype) (e : string) (out_after : Value) :
  strings_Split (req_Method req) dot = [sn; mn] → sn ≠ "" → mn ≠ "" →
  getService (conn_s conn) sn = inl svc →
  service_getMethod svc mn = inl mthd →
  type_Elem (outType mthd) = Some outElem →
  Func (method mthd) (receiverValue svc)
       (json_Unmarshal (req_Param req) (reflect_Zero (inType mthd))).1
       (reflect_Zero outElem) = (Some e, out_after) →
  let resp := mkResponse (req_Id req) nil_bytes e in
  Connection_do json_Marshal json_Unmarshal reflect_Zero conn req
    = Some (write_Response conn resp) ∧
  resp_Error resp = e ∧ resp_Result resp = nil_bytes ∧
  (e ≠ "" →
   (∀ out, Call_reply json_Unmarshal resp out = (Some e, out)) ∧
   ∀ method in_ out sched c c1 c2 newCall cap rest,
     parseCall method in_ c = Done (inl newCall) c1 →
     sched newCall c1 = Done tt c2 →
     chans c2 !! call_done newCall = Some (mkChan cap (resp :: rest)) →
     ∃ c3, Client_Call json_Unmarshal method in_ out sched c = Done (Some e, out) c3).
Proof.
  intros Hsplit Hsn Hmn Hsvc Hmthd Helem Hfunc resp.
  split_and!; try done.
  - unfold Connection_do. rewrite (Regular_two_parts req sn mn) by done.
    rewrite Hsplit. unfold index. simpl. rewrite Hsvc, Hmthd.
    destruct (json_Unmarshal _ _) as [inParam uerr]. simpl in Hfunc.
    rewrite Helem, Hfunc. done.
  - intros He.
    assert (Hreply : ∀ out, Call_reply json_Unmarshal resp out = (Some e, out)).
    { intros out. unfold Call_reply, is_empty. simpl.
      by rewrite bool_decide_eq_false_2. }
    split; [done|].
    intros method0 in_ out sched c c1 c2 newCall cap rest Hparse Hsched Hch.
    eexists. erewrite Client_Call_receives by done. by rewrite Hreply.
Qed.

End SessionFacts.

(* ===================================================================== *)
(** ** Call tracker *)
(* ===================================================================== *)

Section CallTrackerFacts.

Context {Value : Type}.
Variable json_Marshal : Value → string + string.
Variable json_Unmarshal : string → Value → Value * option string.

Implicit Types (c : Client Value) (call : Call Value) (r resp : Response).

Lemma new_events_app c c' (evs : list event) :
  trace c' = trace c ++ evs → new_events c c' = evs.
Proof. unfold new_events. intros ->. by rewrite drop_app_length. Qed.

(** *** The fan-out loop *)

Lemma delivered_lookup_notin r (cs : list (Call Value)) (chs : gmap N chan) (ch : N) :
  ch ∉ call_done <$> cs → delivered r cs chs !! ch = chs !! ch.
Proof.
  revert chs. induction cs as [|call cs IH]; intros chs Hnotin; [done|].
  simpl in *. apply not_elem_of_cons in Hnotin as [Hne Hnotin].
  unfold delivered in *. simpl. rewrite IH by done. by rewrite lookup_insert_ne.
Qed.

Lemma delivered_lookup_in r (cs : list (Call Value)) (chs : gmap N chan) call :
  NoDup (call_done <$> cs) → call ∈ cs →
  delivered r cs chs !! call_done call = Some (mkChan 1 [r]).
Proof.
  revert chs. induction cs as [|call' cs IH]; intros chs Hnd Hin.
  - by apply elem_of_nil in Hin.
  - simpl in Hnd. apply NoDup_cons in Hnd as [Hnotin Hnd].
    unfold delivered in *. simpl.
    destruct (decide (call_done call ∈ call_done <$> cs)) as [Hd|Hd].
    + apply elem_of_cons in Hin as [->|Hin]; [done|]. by apply IH.
    + apply elem_of_cons in Hin as [->|Hin].
      * fold (delivered r cs (<[call_done call' := mkChan 1 [r]]> chs)).
        rewrite delivered_lookup_notin by done. by rewrite lookup_insert_eq.
      * exfalso. apply Hd. by apply list_elem_of_fmap_2.
Qed.

Lemma forM_send_all r (cs : list (Call Value)) c :
  NoDup (call_done <$> cs) →
  Forall (λ call, chans c !! call_done call = Some (mkChan 1 [])) cs →
  forM_ cs (λ call, chan_send (call_done call) r) c =
  Done tt (mkClient (calls c) (closing c) (shutdown c) (seqId c) (reqMutex c) (m c)
                    (delivered r cs (chans c)) (conn_closed c)
                    (trace c ++ ((λ call, EvSend (call_done call) r) <$> cs))).
Proof.
  revert c. induction cs as [|call cs IH]; intros c Hnd Hall.
  - simpl. run_M. destruct c; simpl. by rewrite app_nil_r.
  - simpl in Hnd. apply NoDup_cons in Hnd as [Hnotin Hnd].
    apply Forall_cons in Hall as [Hcall Hall].
    simpl. run_M. unfold chan_send at 1. rewrite Hcall. simpl.
    rewrite IH; [|done|].
    + simpl. unfold delivered. simpl. by rewrite <- app_assoc.
    + simpl. rewrite Forall_forall in Hall. apply Forall_forall.
      intros call' Hin. rewrite lookup_insert_ne; [by apply Hall|].
      intros Heq. apply Hnotin. rewrite Heq. by apply list_elem_of_fmap_2.
Qed.

Lemma calls_ready_spec c :
  calls_ready c = true →
  NoDup (call_done <$> (map_to_list (calls c)).*2) ∧
  Forall (λ call, chans c !! call_done call = Some (mkChan 1 []))
         (map_to_list (calls c)).*2.
Proof.
  unfold calls_ready. intros [Hnd Hall]%andb_true_iff.
  apply bool_decide_eq_true in Hnd. split; [done|].
  apply Forall_forall. intros call Hin.
  rewrite forallb_forall in Hall.
  specialize (Hall (call_done call)). rewrite bool_decide_eq_true in Hall.
  apply Hall. apply list_elem_of_In. by apply list_elem_of_fmap_2.
Qed.

Lemma map_guarded_sends r (cs : list (Call Value)) (held_m : bool) (tl : list event) :
  map_guarded held_m (((λ call, EvSend (call_done call) r) <$> cs) ++ tl)
  = map_guarded held_m tl.
Proof. induction cs; simpl; auto. Qed.

Lemma send_before_map_sends r (cs : list (Call Value)) (held_m : bool) (tl : list event) :
  send_before_map held_m (((λ call, EvSend (call_done call) r) <$> cs) ++ tl)
  = send_before_map held_m tl.
Proof. induction cs; simpl; auto. Qed.

(** The code after the loop of [recv], run with both mutexes free on a client
    whose registered calls have their channels empty. *)
Lemma recv_shutdown_fan_out (err : string) c :
  reqMutex c = false → m c = false → calls_ready c = true →
  recv_shutdown err c =
  Done tt (mkClient (calls c) (closing c) true (seqId c) false false
             (delivered (error_Response err) (map_to_list (calls c)).*2 (chans c))
             (conn_closed c)
             (trace c ++
                [EvLock ReqMutex; EvLock MapMutex; EvRange]
                ++ ((λ call, EvSend (call_done call) (error_Response err))
                      <$> (map_to_list (calls c)).*2)
                ++ [EvUnlock MapMutex; EvUnlock ReqMutex])).
Proof.
  intros Hreq Hm [Hnd Hall]%calls_ready_spec.
  unfold recv_shutdown, Lock, Unlock, map_range. run_M.
  rewrite Hreq. simpl. rewrite Hm. simpl.
  rewrite forM_send_all by done. unfold log. simpl. by rewrite <- !app_assoc.
Qed.

(** C1 (amended). [recv] whose decoder gives the responses [decoded] and then
    fails with the text [err]; [c1] is the client when the failing [Decode]
    returns, with both mutexes free.  [recv] takes the send lock and then the
    map lock, sets [shutdown], puts a Response with the error text [err] in
    the channel of every call in [c.calls] while it holds both locks, and
    releases them.  The map [c.calls] is left as it was: the calls stay in
    it. *)
Theorem C1_shutdown_fan_out (decoded : list Response) (err : string) c c1 :
  forM_ decoded recv_step c = Done tt c1 →
  reqMutex c1 = false → m c1 = false → calls_ready c1 = true →
  ∃ c', recv decoded err c = Done tt c' ∧
    shutdown c' = true ∧
    (∀ id call, calls c1 !! id = Some call →
       chans c' !! call_done call = Some (mkChan 1 [error_Response err])) ∧
    resp_Error (error_Response err) = err ∧
    calls c' = calls c1 ∧
    reqMutex c' = false ∧ m c' = false ∧
    new_events c1 c' =
      [EvLock ReqMutex; EvLock MapMutex; EvRange]
      ++ ((λ call, EvSend (call_done call) (error_Response err))
            <$> (map_to_list (calls c1)).*2)
      ++ [EvUnlock MapMutex; EvUnlock ReqMutex] ∧
    map_guarded false (new_events c1 c') = true ∧
    send_before_map false (new_events c1 c') = true.
Proof.
  intros Hloop Hreq Hm Hready.
  assert (Hrecv : recv decoded err c = recv_shutdown err c1).
  { unfold recv. run_M. by rewrite Hloop. }
  rewrite Hrecv, recv_shutdown_fan_out by done.
  eexists. split; [reflexivity|].
  erewrite new_events_app by reflexivity.
  apply calls_ready_spec in Hready as [Hnd Hall].
  split_and!; try done.
  - intros id call Hlk. simpl. apply delivered_lookup_in; [done|].
    apply list_elem_of_fmap. exists (id, call). split; [done|].
    by apply elem_of_map_to_list.
  - simpl. by rewrite map_guarded_sends.
  - simpl. by rewrite send_before_map_sends.
Qed.

(** *** Lock discipline *)

(** Brings [new_events c c'] into the form of the list of events appended. *)
Ltac new_events_norm :=
  unfold new_events; simpl; rewrite <- ?app_assoc; simpl;
  rewrite ?drop_app_length, ?drop_all; simpl.

(** C9. The turn of the receive loop for a decoded Response reads
    [c.calls] first, before it takes any lock: the first event of the turn is
    the lookup, and the turn's events fail the check that every access to the
    map is made under the map lock. *)
Theorem C9_recv_lookup_without_lock resp c :
  let c' := outcome_state (recv_step resp c) in
  (∃ rest, new_events c c' = EvLookup (resp_Id resp) :: rest) ∧
  map_guarded false (new_events c c') = false.
Proof.
  unfold recv_step, map_lookup. run_M.
  destruct (calls c !! resp_Id resp) as [call|]; simpl.
  - unfold chan_send. simpl.
    destruct (chans c !! call_done call) as [q|]; simpl.
    + destruct (length (chan_buf q) <? chan_cap q)%nat; simpl.
      * unfold Lock. simpl. destruct (m c); simpl;
          new_events_norm; eauto.
      * new_events_norm; eauto.
    + new_events_norm; eauto.
  - new_events_norm; eauto.
Qed.

(** The caller path [do] and the shutdown fan-out keep the discipline: every
    access to the map is under the map lock, and the send lock is never taken
    under the map lock. *)
Lemma Client_do_guarded call (wr : option string) c :
  let c' := outcome_state (Client_do json_Marshal call wr c) in
  map_guarded false (new_events c c') = true ∧
  send_before_map false (new_events c c') = true.
Proof.
  unfold Client_do, send, Lock, Unlock, map_store, map_delete, encoder_Encode,
    chan_send.
  run_M.
  destruct (m c) eqn:Hm; simpl; [by new_events_norm|].
  destruct (closing c || shutdown c); simpl.
  - destruct (chans c !! call_done call) as [q|]; simpl; [|by new_events_norm].
    destruct (length (chan_buf q) <? chan_cap q)%nat; simpl; by new_events_norm.
  - destruct (reqMutex c); simpl; [by new_events_norm|].
    destruct wr as [e|]; simpl; [|by new_events_norm].
    destruct (chans c !! call_done call) as [q|]; simpl; [|by new_events_norm].
    destruct (length (chan_buf q) <? chan_cap q)%nat; simpl; by new_events_norm.
Qed.

(** *** Close *)

(** [Close] never writes the [closing] flag. *)
Lemma Close_keeps_closing c :
  closing (outcome_state (Close c)) = closing c.
Proof.
  unfold Close, Lock, Unlock, conn_Close. run_M.
  destruct (m c); simpl; [done|].
  destruct (shutdown c || closing c); done.
Qed.

(** After the receive loop has set [shutdown], [Close] closes nothing. *)
Lemma Close_after_shutdown c :
  m c = false → shutdown c = true →
  ∃ c', Close c = Done tt c' ∧ conn_closed c' = conn_closed c ∧
        new_events c c' = [EvLock MapMutex; EvUnlock MapMutex].
Proof.
  intros Hm Hsh. unfold Close, Lock, Unlock. run_M. rewrite Hm. simpl.
  rewrite Hsh. simpl. eexists. split; [done|]. split; [done|]. by new_events_norm.
Qed.

(** *** The send path *)

(** C10. [send] drops the error of [json.Marshal]: with the send lock free
    it always encodes one Request with the call's id and method, whose
    payload is the encoding of the input, or nil when the encoding failed,
    and it returns what the write on the socket answered.  So [do] with a
    write that succeeds registers the call and puts no error on its channel,
    whether the input could be encoded or not. *)
Theorem C10_send_ignores_marshal_error call (wr : option string) c :
  reqMutex c = false →
  ∃ c' body,
    send json_Marshal call wr c = Done wr c' ∧
    new_events c c' =
      [EvLock ReqMutex;
       EvEncode (mkRequest (call_id call) (call_method call) body);
       EvUnlock ReqMutex] ∧
    (∀ b, json_Marshal (call_req call) = inl b → body = b) ∧
    (∀ e, json_Marshal (call_req call) = inr e → body = nil_bytes) ∧
    (m c = false → closing c = false → shutdown c = false →
     ∃ c2, Client_do json_Marshal call None c = Done tt c2 ∧
           calls c2 = <[call_id call := call]> (calls c) ∧
           chans c2 = chans c).
Proof.
  intros Hreq. unfold Client_do, send, Lock, Unlock, map_store, encoder_Encode.
  run_M. rewrite Hreq. simpl.
  eexists. exists (match json_Marshal (call_req call) with
                   | inl b => b | inr _ => nil_bytes end).
  split; [reflexivity|]. split; [by new_events_norm|].
  split; [by intros b ->|]. split; [by intros e ->|].
  intros -> -> ->. simpl. eauto.
Qed.

(** *** Timeout *)

Lemma parseCall_inv (method : string) (in_ : Value) c c1 (newCall : Call Value) :
  parseCall method in_ c = Done (inl newCall) c1 →
  let id := ((seqId c + 1) mod 2 ^ 32)%N in
  let ch := fresh (dom (chans c)) in
  newCall = mkCall id method in_ ch ∧
  c1 = set_chans (insert ch (mkChan 1 [])) (set_seqId id c).
Proof.
  unfold parseCall. destruct (_ || _ || _); run_M; [by intros [=]|].
  unfold atomic_AddUint32_seqId, make_chan. simpl. by intros [= <- <-].
Qed.

(** The timer case of the [select] returns without touching the client. *)
Lemma select_timeout_fired (ch : N) (pick : bool) c (cap : nat) :
  chans c !! ch = Some (mkChan cap []) →
  select_timeout ch true pick c = Done None c.
Proof. intros Hch. unfold select_timeout. by rewrite Hch. Qed.

(** A response for a registered call whose channel is empty is put in the
    channel without parking, and the call leaves the map. *)
Lemma recv_step_delivers resp c call :
  calls c !! resp_Id resp = Some call →
  chans c !! call_done call = Some (mkChan 1 []) →
  m c = false →
  ∃ c', recv_step resp c = Done tt c' ∧
        chans c' !! call_done call = Some (mkChan 1 [resp]) ∧
        calls c' = delete (resp_Id resp) (calls c).
Proof.
  intros Hcall Hch Hm. unfold recv_step, map_lookup, chan_send, Lock, Unlock, map_delete.
  run_M. rewrite Hcall. simpl. rewrite Hch. simpl. rewrite Hm. simpl.
  eexists. split; [done|]. simpl. by rewrite lookup_insert_eq.
Qed.

(** C5. A [CallWithTimeout] whose timer fires while its completion channel
    is still empty returns the timeout error and leaves the client in the
    state it found: [c.calls] is not touched, so the call stays registered.
    The channel was made with room for exactly one Response, so a Response
    that arrives later for the registered call is put in the channel without
    parking; no code takes it out again. *)
Theorem C5_timeout_leaves_call_registered (method : string) (in_ : Value)
    (out : option Value) (pick : bool) (sched : Call Value → M Value unit)
    c c1 c2 (newCall : Call Value) (cap : nat) :
  parseCall method in_ c = Done (inl newCall) c1 →
  sched newCall c1 = Done tt c2 →
  chans c2 !! call_done newCall = Some (mkChan cap []) →
  chans c1 !! call_done newCall = Some (mkChan 1 []) ∧
  Client_CallWithTimeout json_Unmarshal method in_ out true pick sched c
    = Done (Some ErrTimeout, out) c2 ∧
  (∀ id, calls c2 !! id = Some newCall →
         calls (outcome_state
                  (Client_CallWithTimeout json_Unmarshal method in_ out true pick sched c))
           !! id = Some newCall) ∧
  (∀ c3 resp,
     calls c3 !! resp_Id resp = Some newCall →
     chans c3 !! call_done newCall = Some (mkChan 1 []) →
     m c3 = false →
     ∃ c4, recv_step resp c3 = Done tt c4 ∧
           chans c4 !! call_done newCall = Some (mkChan 1 [resp]) ∧
           calls c4 = delete (resp_Id resp) (calls c3)).
Proof.
  intros Hparse Hsched Hch.
  assert (Hrun : Client_CallWithTimeout json_Unmarshal method in_ out true pick sched c
                 = Done (Some ErrTimeout, out) c2).
  { unfold Client_CallWithTimeout. run_M. rewrite Hparse, Hsched.
    by rewrite (select_timeout_fired _ _ _ cap). }
  split_and!.
  - apply parseCall_inv in Hparse as [-> ->]. simpl. by rewrite lookup_insert_eq.
  - done.
  - intros id Hid. by rewrite Hrun.
  - intros c3 resp. apply recv_step_delivers.
Qed.

End CallTrackerFacts.

(* ===================================================================== *)
(** ** The theorems at concrete inputs *)
(* ===================================================================== *)

(** C1 as stated fails: the decoder fails at once on a client with the call
    of id 1 in flight; after the fan-out that call is still in [c.calls], the
    map is not emptied. *)
Lemma C1_mapping_not_emptied :
  ∃ c', recv [] "EOF" Sample.client1 = Done tt c' ∧
        calls c' !! 1%N = Some Sample.call1 ∧ calls c' ≠ ∅.
Proof.
  eexists. split; [vm_compute; reflexivity|]. split; [vm_compute; reflexivity|].
  intros Hempty. apply (f_equal (λ mp, mp !! 1%N)) in Hempty. vm_compute in Hempty.
  discriminate Hempty.
Qed.

Lemma C1_shutdown_fan_out_witness :
  ∃ c', recv [] "EOF" Sample.client1 = Done tt c' ∧
        shutdown c' = true ∧
        chans c' !! 0%N = Some (mkChan 1 [error_Response "EOF"]) ∧
        calls c' = calls Sample.client1.
Proof.
  destruct (C1_shutdown_fan_out [] "EOF" Sample.client1 Sample.client1)
    as (c' & Hrun & Hsh & Hch & _ & Hcalls & _);
    [reflexivity | reflexivity | reflexivity | vm_compute; reflexivity |].
  exists c'. split; [exact Hrun|]. split; [exact Hsh|]. split; [|exact Hcalls].
  apply (Hch 1%N Sample.call1). vm_compute. reflexivity.
Defined.

(** C2: [Close] on a new client, twice.  The first call closes the socket and
    leaves [closing] unset; the second call closes the socket again. *)
Lemma C2_Close_twice_closes_twice :
  ∃ c1 c2 : Client Sample.Value,
    Close new_Client = Done tt c1 ∧
    closing c1 = false ∧ conn_closed c1 = 1%nat ∧
    Close c1 = Done tt c2 ∧
    conn_closed c2 = 2%nat ∧
    new_events c1 c2 = [EvLock MapMutex; EvConnClose; EvUnlock MapMutex].
Proof.
  do 2 eexists. split; [vm_compute; reflexivity|].
  split; [reflexivity|]. split; [reflexivity|].
  split; [vm_compute; reflexivity|]. split; reflexivity.
Qed.

(** C3: a request for the registered method [Arith.Same] whose payload is
    the JSON value [true], which does not decode into the [int] input.
    [Unmarshal] fails, and the session writes a success Response (error field
    empty) built from the zero input. *)
Lemma C3_unmarshal_error_dropped :
  (Sample.Unmarshal "true" (Sample.Zero Sample.t_int)).2
    = Some "json: cannot unmarshal value into Go value of type int" ∧
  Connection_do Sample.Marshal Sample.Unmarshal Sample.Zero
                Sample.connection (mkRequest 7 "Arith.Same" "true")
    = Some (write_Response Sample.connection (mkResponse 7 "0" "")).
Proof. split; vm_compute; reflexivity. Qed.

Lemma C4_Server_getMethod_inverted_witness :
  Server_getMethod Sample.server "Arith.Same" =
    (Some Sample.arith_service, None,
     Some "serviceMethod 'Arith' not found in service 'Same'") ∧
  Server_getMethod Sample.server "Arith.Missing" =
    (Some Sample.arith_service, None, None).
Proof.
  split.
  - apply (C4_Server_getMethod_inverted Sample.server "Arith.Same" "Arith" "Same"
             Sample.arith_service); [reflexivity | vm_compute; reflexivity |].
    vm_compute. eauto.
  - apply (C4_Server_getMethod_inverted Sample.server "Arith.Missing" "Arith" "Missing"
             Sample.arith_service); [reflexivity | vm_compute; reflexivity |].
    vm_compute. reflexivity.
Defined.

Lemma C5_timeout_leaves_call_registered_witness :
  Client_CallWithTimeout Sample.Unmarshal "Arith.Same" "7" None true false
      (do_then_recv Sample.Marshal None []) new_Client
    = Done (Some ErrTimeout, None) Sample.client_sent ∧
  calls Sample.client_sent !! 1%N = Some Sample.call1 ∧
  ∃ c4, recv_step (mkResponse 1 "7" "") Sample.client_sent = Done tt c4 ∧
        chans c4 !! 0%N = Some (mkChan 1 [mkResponse 1 "7" ""]).
Proof.
  destruct (C5_timeout_leaves_call_registered Sample.Unmarshal "Arith.Same" "7" None
              false (do_then_recv Sample.Marshal None [])
              new_Client Sample.client_parsed Sample.client_sent Sample.call1 1)
    as (_ & Hrun & _ & Hlate);
    [vm_compute; reflexivity | vm_compute; reflexivity | vm_compute; reflexivity |].
  split; [exact Hrun|]. split; [vm_compute; reflexivity|].
  destruct (Hlate Sample.client_sent (mkResponse 1 "7" ""))
    as (c4 & Hstep & Hch & _);
    [vm_compute; reflexivity | vm_compute; reflexivity | reflexivity |].
  exists c4. split; [exact Hstep | exact Hch].
Defined.

(** C6 as stated fails for an error whose text is empty: [Arith.Fail]
    returns the non-nil error [errors.New("")], the server writes a Response
    with an empty error field, and the [Call] that receives it returns no
    error. *)
Lemma C6_empty_error_text :
  (Func Sample.Fail "{}" "12" "0").1 = Some "" ∧
  Connection_do Sample.Marshal Sample.Unmarshal Sample.Zero
                Sample.connection (mkRequest 1 "Arith.Fail" "12")
    = Some (write_Response Sample.connection (mkResponse 1 nil_bytes "")) ∧
  ∃ c', Client_Call Sample.Unmarshal "Arith.Fail" "12" None
          (do_then_recv Sample.Marshal None [mkResponse 1 nil_bytes ""]) new_Client
        = Done (None, None) c'.
Proof.
  split; [reflexivity|]. split; [vm_compute; reflexivity|].
  eexists. vm_compute. reflexivity.
Qed.

Lemma C6_error_outcome_witness :
  Connection_do Sample.Marshal Sample.Unmarshal Sample.Zero
                Sample.connection (mkRequest 7 "Arith.Reject" "12")
    = Some (write_Response Sample.connection (mkResponse 7 nil_bytes "negative input")) ∧
  Call_reply Sample.Unmarshal (mkResponse 7 nil_bytes "negative input") (Some "0")
    = (Some "negative input", Some "0").
Proof.
  destruct (C6_error_outcome Sample.Marshal Sample.Unmarshal Sample.Zero
              Sample.connection (mkRequest 7 "Arith.Reject" "12") "Arith" "Reject"
              Sample.arith_service
              (mkServiceMethod Sample.Reject Sample.t_int (TPtr "" "" Sample.t_int))
              Sample.t_int "negative input" "0")
    as (Hdo & _ & _ & Hcall);
    [reflexivity | discriminate | discriminate | vm_compute; reflexivity
    | vm_compute; reflexivity | reflexivity | reflexivity |].
  split; [exact Hdo|]. apply Hcall. discriminate.
Defined.

Lemma C8_Register_zero_methods_witness :
  Register Sample.DecodeRune Sample.IsUpper (NewServer ":8080") Sample.idle
    = (Some NoExportedMethod, NewServer ":8080") ∧
  getService (Register Sample.DecodeRune Sample.IsUpper (NewServer ":8080") Sample.idle).2
             "Idle"
    = inr "serviceName 'Idle' not exists".
Proof.
  destruct (C8_Register_zero_methods Sample.DecodeRune Sample.IsUpper
              (NewServer ":8080") Sample.idle) as [Hreg Hget];
    [discriminate | repeat constructor |].
  split; [exact Hreg|]. apply (Hget "Idle"). reflexivity.
Defined.

(** C9 at a concrete input: the Response for the call in flight. *)
Lemma C9_recv_trace_example :
  new_events Sample.client1
    (outcome_state (recv_step (mkResponse 1 "7" "") Sample.client1))
  = [EvLookup 1; EvSend 0 (mkResponse 1 "7" "");
     EvLock MapMutex; EvDelete 1; EvUnlock MapMutex].
Proof. vm_compute. reflexivity. Qed.

Lemma C10_send_ignores_marshal_error_witness :
  Sample.Marshal (call_req Sample.call_chan) = inr "json: unsupported type: chan int" ∧
  ∃ c', send Sample.Marshal Sample.call_chan None Sample.client_parsed = Done None c' ∧
        new_events Sample.client_parsed c' =
          [EvLock ReqMutex; EvEncode (mkRequest 1 "Arith.Same" nil_bytes);
           EvUnlock ReqMutex].
Proof.
  split; [reflexivity|].
  destruct (C10_send_ignores_marshal_error Sample.Marshal Sample.call_chan None
              Sample.client_parsed) as (c' & body & Hsend & Hev & _ & Hnil & _);
    [reflexivity|].
  exists c'. split; [exact Hsend|].
  rewrite Hev. rewrite (Hnil "json: unsupported type: chan int"); reflexivity.
Defined.

(* ===================================================================== *)
(** ** More on the service registry *)
(* ===================================================================== *)

Section RegisterMoreFacts.

Context {Value : Type}.
Variable DecodeRune : string → N.
Variable IsUpper : N → bool.

Implicit Types (mm : gmap string (serviceMethod Value)) (mth : Method Value)
  (mths : list (Method Value)) (s : Server Value) (receiver : Receiver Value).

Lemma Register_fold_lookup mm mths (n : string) (sm : serviceMethod Value) :
  foldl (Register_method DecodeRune IsUpper) mm mths !! n = Some sm →
  mm !! n = Some sm ∨
  ∃ mth, mth ∈ mths ∧ matches_convention DecodeRune IsUpper mth = true ∧
         Name mth = n ∧ sm = entry_of mth.
Proof.
  revert mm. induction mths as [|mth mths IH]; intros mm Hlk; [by left|].
  simpl in Hlk. apply IH in Hlk as [Hlk|(mth' & Hin & Hm & Hn & Hsm)].
  - rewrite Register_method_convention in Hlk.
    destruct (matches_convention _ _ mth) eqn:Hm; [|by left].
    destruct (decide (Name mth = n)) as [Heq|Hne].
    + subst n. rewrite lookup_insert_eq in Hlk. injection Hlk as <-.
      right. exists mth. split; [by left|]. done.
    + rewrite lookup_insert_ne in Hlk by done. by left.
  - right. exists mth'. split; [by right|]. done.
Qed.

Lemma Register_fold_keeps mm mths (n : string) :
  is_Some (mm !! n) →
  is_Some (foldl (Register_method DecodeRune IsUpper) mm mths !! n).
Proof.
  revert mm. induction mths as [|mth mths IH]; intros mm Hsome; [done|].
  simpl. apply IH. rewrite Register_method_convention.
  destruct (matches_convention _ _ mth); [|done].
  destruct (decide (Name mth = n)) as [->|Hne].
  - rewrite lookup_insert_eq. by eauto.
  - by rewrite lookup_insert_ne.
Qed.

Lemma Register_fold_has mm mths mth :
  mth ∈ mths → matches_convention DecodeRune IsUpper mth = true →
  is_Some (foldl (Register_method DecodeRune IsUpper) mm mths !! Name mth).
Proof.
  revert mm. induction mths as [|mth' mths IH]; intros mm Hin Hm.
  - by apply elem_of_nil in Hin.
  - simpl. apply elem_of_cons in Hin as [<-|Hin]; [|by apply IH].
    apply Register_fold_keeps. rewrite Register_method_convention, Hm.
    rewrite lookup_insert_eq. by eauto.
Qed.

Lemma matches_convention_out_pointer mth :
  matches_convention DecodeRune IsUpper mth = true →
  type_Kind (outType (entry_of mth)) = Ptr.
Proof.
  unfold matches_convention. intros H.
  repeat (apply andb_true_iff in H; destruct H as [H ?]). simpl.
  match goal with
  | Hk : bool_decide (type_Kind _ = Ptr) = true |- _ =>
      by apply bool_decide_eq_true in Hk
  end.
Qed.

(** The three ways [Register] ends, with the server it leaves. *)
Lemma Register_cases s receiver :
  let name := type_Name (Indirect_Type (recv_Type receiver)) in
  let matches := matches_convention DecodeRune IsUpper in
  let mm := foldl (Register_method DecodeRune IsUpper) ∅ (recv_Methods receiver) in
  let res := Register DecodeRune IsUpper s receiver in
  (name = "" ∧ res = (Some "invalid service name", s)) ∨
  (name ≠ "" ∧ Forall (λ mth, matches mth = false) (recv_Methods receiver) ∧
   res = (Some NoExportedMethod, s)) ∨
  (name ≠ "" ∧ Exists (λ mth, matches mth = true) (recv_Methods receiver) ∧
   res = (None,
          mkServer (Addr s)
            (Some (<[name := mkService (recv_Type receiver) (recv_Value receiver) mm]>
                     match serviceMap s with Some mp => mp | None => ∅ end)))).
Proof.
  intros name matches mm res. unfold res, Register. fold name. unfold is_empty.
  case_bool_decide as Hname; simpl; [by left|]. right.
  destruct (decide (Forall (λ mth, matches mth = false) (recv_Methods receiver)))
    as [Hall|Hex].
  - left. by rewrite (Register_none_qualify _ _ ∅ _ Hall), map_size_empty.
  - right.
    assert (Hex' : Exists (λ mth, matches mth = true) (recv_Methods receiver)).
    { apply not_Forall_Exists in Hex; [|solve_decision].
      eapply Exists_impl; [exact Hex|]. simpl. intros mth Hm.
      by destruct (matches mth). }
    apply Exists_exists in Hex' as Hwit. destruct Hwit as (mth & Hin & Hm).
    destruct (Register_fold_has ∅ _ mth Hin Hm) as [sm Hsm].
    destruct (size _) as [|k] eqn:Hsize.
    { apply map_size_empty_inv in Hsize. rewrite Hsize in Hsm.
      by rewrite lookup_empty in Hsm. }
    done.
Qed.

(** [Register] fails in two ways and succeeds otherwise: the invalid-name
    error exactly for a type without a name, the no-exported-method error
    exactly for a named type none of whose methods matches the calling
    convention, and no error exactly for a named type with at least one such
    method.  Whenever it returns an error the server is the one it was
    given. *)
Theorem Register_outcome s receiver :
  let name := type_Name (Indirect_Type (recv_Type receiver)) in
  let matches := matches_convention DecodeRune IsUpper in
  let res := Register DecodeRune IsUpper s receiver in
  (res.1 = Some "invalid service name" ↔ name = "") ∧
  (res.1 = Some NoExportedMethod ↔
     name ≠ "" ∧ Forall (λ mth, matches mth = false) (recv_Methods receiver)) ∧
  (res.1 = None ↔
     name ≠ "" ∧ Exists (λ mth, matches mth = true) (recv_Methods receiver)) ∧
  (res.1 ≠ None → res.2 = s).
Proof.
  intros name matches res.
  assert (Hexcl : Forall (λ mth, matches mth = false) (recv_Methods receiver) →
                  Exists (λ mth, matches mth = true) (recv_Methods receiver) → False).
  { intros Hall (mth & Hin & Hm)%Exists_exists.
    rewrite Forall_forall in Hall. specialize (Hall mth Hin). congruence. }
  destruct (Register_cases s receiver)
    as [[Hname Hres]|[(Hname & Hall & Hres)|(Hname & Hex & Hres)]];
    fold name matches res in Hname, Hres |- *; rewrite Hres; simpl.
  - split_and!.
    + done.
    + split; [intros H; discriminate H | by intros [? _]].
    + split; [intros H; discriminate H | by intros [? _]].
    + done.
  - split_and!.
    + split; [intros H; discriminate H | done].
    + done.
    + split; [intros H; discriminate H | intros [_ Hex]; by destruct Hexcl].
    + done.
  - split_and!.
    + split; [intros H; discriminate H | done].
    + split; [intros H; discriminate H | intros [_ Hall]; by destruct Hexcl].
    + done.
    + done.
Qed.

(** A [Register] that succeeds installs the new service under the type's
    name, whatever was registered under that name before: a lookup of the
    name gives a service with the receiver's value whose method map holds
    entries for methods of the calling convention only, each under its own
    name and with a pointer output type, and holds an entry for the name of
    every such method of the receiver.  The other names are looked up as
    before. *)
Theorem Register_installs s receiver :
  let name := type_Name (Indirect_Type (recv_Type receiver)) in
  let s' := (Register DecodeRune IsUpper s receiver).2 in
  (Register DecodeRune IsUpper s receiver).1 = None →
  ∃ svc,
    getService s' name = inl svc ∧
    receiverValue svc = recv_Value receiver ∧
    receiverType svc = recv_Type receiver ∧
    (∀ n sm, methodMap svc !! n = Some sm →
       method sm ∈ recv_Methods receiver ∧
       matches_convention DecodeRune IsUpper (method sm) = true ∧
       Name (method sm) = n ∧ sm = entry_of (method sm) ∧
       type_Kind (outType sm) = Ptr) ∧
    (∀ mth, mth ∈ recv_Methods receiver →
       matches_convention DecodeRune IsUpper mth = true →
       is_Some (methodMap svc !! Name mth)) ∧
    (∀ other, other ≠ name → getService s' other = getService s other).
Proof.
  intros name s'. unfold s'.
  destruct (Register_cases s receiver)
    as [[_ Hres]|[(_ & _ & Hres)|(_ & _ & Hres)]]; rewrite Hres; simpl;
    [done | done |]. intros _. fold name.
  eexists. unfold getService, nilable_lookup. simpl.
  rewrite lookup_insert_eq. split; [reflexivity|]. simpl.
  split_and!; try done.
  - intros n sm Hlk. apply Register_fold_lookup in Hlk as [Hlk|Hlk].
    { by rewrite lookup_empty in Hlk. }
    destruct Hlk as (mth & Hin & Hm & Hn & ->). simpl.
    split_and!; try done. by apply matches_convention_out_pointer.
  - intros mth Hin Hm. by apply Register_fold_has.
  - intros other Hne. rewrite lookup_insert_ne by done.
    destruct (serviceMap s); [done|]. by rewrite lookup_empty.
Qed.

(** Every service of a server a program can build is the one [Register] made
    from some receiver with a named type and a method of the calling
    convention, and sits under that type's name. *)
Lemma built_services s (sn : string) (svc : service Value) :
  built DecodeRune IsUpper s →
  nilable_lookup (serviceMap s) sn = Some svc →
  ∃ receiver,
    sn = type_Name (Indirect_Type (recv_Type receiver)) ∧ sn ≠ "" ∧
    Exists (λ mth, matches_convention DecodeRune IsUpper mth = true)
           (recv_Methods receiver) ∧
    svc = mkService (recv_Type receiver) (recv_Value receiver)
            (foldl (Register_method DecodeRune IsUpper) ∅ (recv_Methods receiver)).
Proof.
  intros Hbuilt. revert sn svc.
  induction Hbuilt as [addr|s receiver Hbuilt IH]; intros sn svc Hlk; [done|].
  destruct (Register_cases s receiver)
    as [[_ Hres]|[(_ & _ & Hres)|(Hname & Hex & Hres)]]; rewrite Hres in Hlk;
    simpl in Hlk; [by apply IH | by apply IH |].
  destruct (decide (type_Name (Indirect_Type (recv_Type receiver)) = sn)) as [Heq|Hne].
  - subst sn. rewrite lookup_insert_eq in Hlk. injection Hlk as <-.
    exists receiver. done.
  - rewrite lookup_insert_ne in Hlk by done. apply IH.
    destruct (serviceMap s); [done|]. by rewrite lookup_empty in Hlk.
Qed.


(** The registry of every server a program can build is well formed: each
    service sits under the name of the type of its receiver, which is not
    empty, and has at least one method; each method sits under its own name,
    matches the calling convention and has a pointer as its output type. *)
Theorem built_registry_invariant s (sn : string) (svc : service Value) :
  built DecodeRune IsUpper s →
  nilable_lookup (serviceMap s) sn = Some svc →
  sn = type_Name (Indirect_Type (receiverType svc)) ∧ sn ≠ "" ∧
  methodMap svc ≠ ∅ ∧
  ∀ mn sm, methodMap svc !! mn = Some sm →
    Name (method sm) = mn ∧
    matches_convention DecodeRune IsUpper (method sm) = true ∧
    type_Kind (outType sm) = Ptr.
Proof.
  intros Hbuilt Hlk.
  destruct (built_services s sn svc Hbuilt Hlk) as (receiver & Hsn & Hne & Hex & ->).
  simpl. split_and!; try done.
  - apply Exists_exists in Hex as (mth & Hin & Hm).
    destruct (Register_fold_has ∅ _ mth Hin Hm) as [sm Hsm]. intros Hempty.
    by rewrite Hempty, lookup_empty in Hsm.
  - intros mn sm Hm. apply Register_fold_lookup in Hm as [Hm|(mth & _ & Hmatch & Hn & ->)].
    + by rewrite lookup_empty in Hm.
    + simpl. split_and!; try done. by apply matches_convention_out_pointer.
Qed.

End RegisterMoreFacts.

(* ===================================================================== *)
(** ** More on the connection session *)
(* ===================================================================== *)

Section SessionMoreFacts.

Context {Value : Type}.
Variable json_Marshal : Value → string + string.
Variable json_Unmarshal : string → Value → Value * option string.
Variable reflect_Zero : rtype → Value.
Variable DecodeRune : string → N.
Variable IsUpper : N → bool.

Implicit Types (conn : Connection Value) (req : Request).

(** What [do] leaves when it returns: the connection with one more Response
    written, under the id of the request. *)
Lemma Connection_do_shape conn req conn' :
  Connection_do json_Marshal json_Unmarshal reflect_Zero conn req = Some conn' →
  ∃ r, conn' = write_Response conn r ∧ resp_Id r = req_Id req.
Proof.
  unfold Connection_do, replyError, replyResult.
  destruct (Regular req); [intros [= <-]; by eauto|].
  destruct (getService _ _) as [svc|]; [|intros [= <-]; by eauto].
  destruct (service_getMethod _ _) as [mthd|]; [|intros [= <-]; by eauto].
  destruct (json_Unmarshal _ _) as [inParam uerr].
  destruct (type_Elem _) as [outElem|]; [|done].
  destruct (Func _ _ _ _) as [[e|] outParam]; intros [= <-]; by eauto.
Qed.

(** A [do] that returns has written one Response, after the ones written
    before, and that Response carries the id of the request; the server and
    the socket are as they were. *)
Theorem Connection_do_one_response conn req conn' :
  Connection_do json_Marshal json_Unmarshal reflect_Zero conn req = Some conn' →
  ∃ r, conn_sent conn' = conn_sent conn ++ [r] ∧
       resp_Id r = req_Id req ∧
       conn_s conn' = conn_s conn ∧
       conn_c_closed conn' = conn_c_closed conn.
Proof.
  intros (r & -> & Hid)%Connection_do_shape.
  exists r. unfold write_Response. simpl. by split_and!.
Qed.




(** A well-formed method name whose service or method is not registered: the
    session writes an error Response that names what is missing, under the
    id of the request, and goes on with the next request. *)
Theorem Connection_do_unknown conn req (sn mn : string) (rest : list Request) :
  strings_Split (req_Method req) dot = [sn; mn] → sn ≠ "" → mn ≠ "" →
  let do := Connection_do json_Marshal json_Unmarshal reflect_Zero in
  let loop := Serve_loop json_Marshal json_Unmarshal reflect_Zero in
  (nilable_lookup (serviceMap (conn_s conn)) sn = None →
   let conn' := replyError conn (req_Id req) ("serviceName '" +:+ sn +:+ "' not exists") in
   do conn req = Some conn' ∧ loop conn (req :: rest) = loop conn' rest) ∧
  (∀ svc, nilable_lookup (serviceMap (conn_s conn)) sn = Some svc →
          methodMap svc !! mn = None →
   let conn' := replyError conn (req_Id req) ("methodName '" +:+ mn +:+ "' not exists") in
   do conn req = Some conn' ∧ loop conn (req :: rest) = loop conn' rest).
Proof.
  intros Hsplit Hsn Hmn do loop.
  assert (Hreg : Regular req = None) by by apply (Regular_two_parts req sn mn).
  split.
  - intros Hsvc conn'.
    assert (Hdo : do conn req = Some conn').
    { unfold do, Connection_do, getService. rewrite Hreg, Hsplit. unfold index. simpl.
      by rewrite Hsvc. }
    split; [done|]. unfold loop. simpl. fold do. by rewrite Hdo.
  - intros svc Hsvc Hm conn'.
    assert (Hdo : do conn req = Some conn').
    { unfold do, Connection_do, getService, service_getMethod.
      rewrite Hreg, Hsplit. unfold index. simpl. by rewrite Hsvc, Hm. }
    split; [done|]. unfold loop. simpl. fold do. by rewrite Hdo.
Qed.

(** A registered method that returns a nil error: it was given the decoded
    payload as its input and the zero value behind the out pointer, and the
    session writes a Response with an empty error field whose result is the
    encoding of what the method left behind the out pointer, or is empty when
    that cannot be encoded. *)
Theorem Connection_do_success conn req (sn mn : string) (svc : service Value)
    (mthd : serviceMethod Value) (outElem : rtype) (outv : Value) :
  strings_Split (req_Method req) dot = [sn; mn] → sn ≠ "" → mn ≠ "" →
  getService (conn_s conn) sn = inl svc →
  service_getMethod svc mn = inl mthd →
  type_Elem (outType mthd) = Some outElem →
  Func (method mthd) (receiverValue svc)
       (json_Unmarshal (req_Param req) (reflect_Zero (inType mthd))).1
       (reflect_Zero outElem) = (None, outv) →
  ∃ body,
    Connection_do json_Marshal json_Unmarshal reflect_Zero conn req
      = Some (write_Response conn (mkResponse (req_Id req) body "")) ∧
    (∀ b, json_Marshal outv = inl b → body = b) ∧
    (∀ e, json_Marshal outv = inr e → body = nil_bytes).
Proof.
  intros Hsplit Hsn Hmn Hsvc Hmthd Helem Hfunc.
  exists (match json_Marshal outv with inl b => b | inr _ => nil_bytes end).
  split; [|split; [by intros b -> | by intros e ->]].
  unfold Connection_do. rewrite (Regular_two_parts req sn mn) by done.
  rewrite Hsplit. unfold index. simpl. rewrite Hsvc, Hmthd.
  destruct (json_Unmarshal _ _) as [inParam uerr]. simpl in Hfunc.
  by rewrite Helem, Hfunc.
Qed.

End SessionMoreFacts.

(* ===================================================================== *)
(** ** More on method names *)
(* ===================================================================== *)

Section SplitMoreFacts.

Variable sep : ascii.

Lemma strings_Split_length (s : string) :
  length (strings_Split s sep) = S (strings_Count s sep).
Proof.
  induction s as [|ch rest IH]; simpl; [done|].
  case_decide; simpl; [by rewrite IH|].
  destruct (strings_Split rest sep); simpl in *; done.
Qed.

Lemma strings_Split_Join (s : string) :
  strings_Join (strings_Split s sep) sep = s.
Proof.
  induction s as [|ch rest IH]; simpl; [done|].
  destruct (strings_Split_nonempty sep rest) as (p & ps & Hp).
  rewrite Hp in *. case_decide as Hch.
  - subst ch.
    change (strings_Join ("" :: p :: ps) sep)
      with ("" +:+ String sep (strings_Join (p :: ps) sep)).
    by rewrite IH.
  - destruct ps as [|q l].
    + simpl in *. by rewrite IH.
    + change (strings_Join (String ch p :: q :: l) sep)
        with (String ch (p +:+ String sep (strings_Join (q :: l) sep))).
      f_equal. exact IH.
Qed.

Lemma strings_Split_parts (s : string) :
  Forall (λ p, contains p sep = false) (strings_Split s sep).
Proof.
  induction s as [|ch rest IH]; simpl; [by repeat constructor|].
  destruct (strings_Split_nonempty sep rest) as (p & ps & Hp).
  rewrite Hp in *. apply Forall_cons in IH as [Hp1 Hps].
  case_decide as Hch.
  - by repeat constructor.
  - constructor; [|done]. simpl. by rewrite bool_decide_eq_false_2.
Qed.

End SplitMoreFacts.

(** The answer of [Request.Regular] read off the method name: a name that
    does not hold exactly one dot gets the invalid-method error with the name
    in it; a name [a.b] gets the invalid-service-name error when [a] is
    empty, else the invalid-serviceMethod-name error when [b] is empty (both
    messages end after the colon, the part they print being empty), and no
    error otherwise. *)
Theorem Regular_error_cases (req : Request) :
  let name := req_Method req in
  (strings_Count name dot ≠ 1%nat →
   Regular req = Some ("invalid method: " +:+ name)) ∧
  (strings_Count name dot = 1%nat →
   ∃ a b, name = a +:+ String dot b ∧
          contains a dot = false ∧ contains b dot = false ∧
          Regular req =
            if is_empty a then Some "invalid service name: "
            else if is_empty b then Some "invalid serviceMethod name: "
            else None).
Proof.
  intros name. unfold Regular. fold name.
  pose proof (strings_Split_length dot name) as Hlen. split.
  - intros Hcount.
    destruct (length (strings_Split name dot) =? 2)%nat eqn:Heq; [|done].
    apply Nat.eqb_eq in Heq. lia.
  - intros Hcount. rewrite Hcount in Hlen.
    destruct (strings_Split name dot) as [|a [|b [|x l]]] eqn:Hsplit;
      simpl in Hlen; try lia.
    apply strings_Split_two in Hsplit as (Hname & Ha & Hb).
    exists a, b. split_and!; try done. unfold index, is_empty. simpl.
    repeat case_bool_decide; by subst.
Qed.

(* ===================================================================== *)
(** ** The lookup helper of the server *)
(* ===================================================================== *)

Section GetMethodFacts.

Context {Value : Type}.

(** [Server.getMethod] only counts the parts of the name: it reports an
    invalid method exactly for a name that does not hold exactly one dot.  A
    name [a.b] is looked up even when [a] or [b] is empty (a name that
    [Regular] rejects), and gets the service-not-found error when no service
    is registered under [a]. *)
Theorem Server_getMethod_counts_parts (s : Server Value) (name : string) :
  (strings_Count name dot ≠ 1%nat ↔
   Server_getMethod s name = (None, None, Some ("invalid method(" +:+ name +:+ ")"))) ∧
  (∀ a b, name = a +:+ String dot b →
          contains a dot = false → contains b dot = false →
          nilable_lookup (serviceMap s) a = None →
          Server_getMethod s name
          = (None, None, Some ("service '" +:+ a +:+ "' not found"))).
Proof.
  pose proof (strings_Split_length dot name) as Hlen. split.
  - unfold Server_getMethod. split.
    + intros Hcount.
      destruct (length (strings_Split name dot) =? 2)%nat eqn:Heq; [|done].
      apply Nat.eqb_eq in Heq. lia.
    + destruct (length (strings_Split name dot) =? 2)%nat eqn:Heq.
      * simpl. destruct (nilable_lookup _ _) as [svc|]; [|by intros [= ?]].
        destruct (methodMap svc !! _); by intros [= ?].
      * intros _. apply Nat.eqb_neq in Heq. lia.
  - intros a b Hname Ha Hb Hlk.
    assert (Hsplit : strings_Split name dot = [a; b]) by by apply strings_Split_two.
    unfold Server_getMethod. rewrite Hsplit. unfold index. simpl. by rewrite Hlk.
Qed.

End GetMethodFacts.

(* ===================================================================== *)
(** ** More on the call tracker *)
(* ===================================================================== *)

(** Brings [new_events c c'] into the form of the list of events appended. *)
Ltac events_norm :=
  unfold new_events; simpl; rewrite <- ?app_assoc; simpl;
  rewrite ?drop_app_length, ?drop_all; simpl.

Section CallTrackerMoreFacts.

Context {Value : Type}.
Variable json_Marshal : Value → string + string.
Variable json_Unmarshal : string → Value → Value * option string.

Implicit Types (c : Client Value) (call : Call Value) (r resp : Response).

(** *** Allocation of ids and channels *)

(** [parseCall] on a well-formed name takes the next id, modulo 2^32, and
    makes a channel that no earlier call has: the channel is new in the
    store, empty, with room for one Response; the channels made before and
    the map of calls are untouched.  The next [parseCall] gets another id and
    another channel. *)
Theorem parseCall_fresh (method method' : string) (in_ in_' : Value)
    c c1 c2 (call1 call2 : Call Value) :
  parseCall method in_ c = Done (inl call1) c1 →
  parseCall method' in_' c1 = Done (inl call2) c2 →
  call_id call1 = ((seqId c + 1) mod 2 ^ 32)%N ∧
  (call_id call1 < 2 ^ 32)%N ∧
  call_method call1 = method ∧ call_req call1 = in_ ∧
  chans c !! call_done call1 = None ∧
  chans c1 !! call_done call1 = Some (mkChan 1 []) ∧
  (∀ ch, ch ≠ call_done call1 → chans c1 !! ch = chans c !! ch) ∧
  calls c1 = calls c ∧
  call_id call2 ≠ call_id call1 ∧
  call_done call2 ≠ call_done call1.
Proof using Type.
  intros [-> ->]%parseCall_inv [-> ->]%parseCall_inv. simpl.
  assert (Hfresh : ∀ X : gset N, fresh X ∉ X) by apply is_fresh.
  split_and!; try done.
  - apply N.mod_lt. done.
  - apply not_elem_of_dom. apply Hfresh.
  - by rewrite lookup_insert_eq.
  - intros ch Hne. by rewrite lookup_insert_ne.
  - set (id1 := ((seqId c + 1) mod 2 ^ 32)%N).
    assert (id1 < 2 ^ 32)%N by (apply N.mod_lt; done).
    intros Heq. destruct (decide (id1 + 1 < 2 ^ 32)%N) as [Hlt|Hge].
    + rewrite N.mod_small in Heq by done. lia.
    + assert (id1 + 1 = 2 ^ 32)%N as Hmax by lia.
      rewrite Hmax, N.Div0.mod_same in Heq. lia.
  - intros Heq. specialize (Hfresh (dom (<[fresh (dom (chans c)) := mkChan 1 []]> (chans c)))).
    rewrite Heq in Hfresh. apply Hfresh. rewrite dom_insert_L.
    apply elem_of_union_l. by apply elem_of_singleton.
Qed.

(** *** The receive loop *)

(** A Response whose id is not in the map is dropped: the turn ends with the
    client as it was but for the lookup in the trace; no channel receives
    anything and no lock is taken. *)
Theorem recv_step_unknown_id resp c :
  calls c !! resp_Id resp = None →
  ∃ c', recv_step resp c = Done tt c' ∧
        calls c' = calls c ∧ chans c' = chans c ∧
        shutdown c' = shutdown c ∧ closing c' = closing c ∧
        new_events c c' = [EvLookup (resp_Id resp)].
Proof.
  intros Hlk. unfold recv_step, map_lookup. run_M. rewrite Hlk. simpl.
  eexists. split; [done|]. split_and!; try done. by events_norm.
Qed.

(** A Response for a registered call goes to that call and to no other: it
    is added to the channel of the call registered under its id, whose entry
    is removed from the map; every other channel and every other entry of the
    map is as it was. *)
Theorem recv_step_no_cross_delivery resp c call (q : chan) :
  calls c !! resp_Id resp = Some call →
  chans c !! call_done call = Some q →
  (length (chan_buf q) < chan_cap q)%nat →
  m c = false →
  ∃ c', recv_step resp c = Done tt c' ∧
        chans c' !! call_done call = Some (mkChan (chan_cap q) (chan_buf q ++ [resp])) ∧
        (∀ ch, ch ≠ call_done call → chans c' !! ch = chans c !! ch) ∧
        calls c' !! resp_Id resp = None ∧
        (∀ id, id ≠ resp_Id resp → calls c' !! id = calls c !! id) ∧
        m c' = false ∧ reqMutex c' = reqMutex c.
Proof.
  intros Hcall Hch Hroom Hm.
  unfold recv_step, map_lookup, chan_send, Lock, Unlock, map_delete.
  run_M. rewrite Hcall. simpl. rewrite Hch. simpl.
  apply Nat.ltb_lt in Hroom. rewrite Hroom. simpl. rewrite Hm. simpl.
  eexists. split; [done|]. simpl. split_and!; try done.
  - by rewrite lookup_insert_eq.
  - intros ch Hne. by rewrite lookup_insert_ne.
  - by rewrite lookup_delete_eq.
  - intros id Hne. by rewrite lookup_delete_ne.
Qed.

(** *** Timeout *)

(** With a timer that has not fired when the caller is resumed,
    [CallWithTimeout] is [Call]: the same result, the same client, or both
    parked. *)
Theorem CallWithTimeout_without_timer (method : string) (in_ : Value)
    (out : option Value) (pick : bool) (sched : Call Value → M Value unit) c :
  Client_CallWithTimeout json_Unmarshal method in_ out false pick sched c
  = Client_Call json_Unmarshal method in_ out sched c.
Proof.
  unfold Client_CallWithTimeout, Client_Call. run_M.
  destruct (parseCall method in_ c) as [[newCall|err] c1|c1]; try done.
  destruct (sched newCall c1) as [[] c2|c2]; try done.
  unfold select_timeout, chan_recv. simpl.
  destruct (chans c2 !! call_done newCall) as [[cap [|r rest]]|]; done.
Qed.

(** *** A call from start to end *)

(** [do] on a client that is not closed, with both mutexes free and a write
    that succeeds. *)
Lemma Client_do_registers call c :
  closing c = false → shutdown c = false → reqMutex c = false → m c = false →
  Client_do json_Marshal call None c =
  Done tt (mkClient (<[call_id call := call]> (calls c)) false false (seqId c)
             false false (chans c) (conn_closed c)
             (trace c ++
                [EvLock MapMutex; EvStore (call_id call); EvUnlock MapMutex;
                 EvLock ReqMutex;
                 EvEncode (mkRequest (call_id call) (call_method call)
                             match json_Marshal (call_req call) with
                             | inl b => b
                             | inr _ => nil_bytes
                             end);
                 EvUnlock ReqMutex])).
Proof.
  intros Hcl Hsh Hreq Hm.
  unfold Client_do, send, Lock, Unlock, map_store, encoder_Encode. run_M.
  rewrite Hm. simpl. rewrite Hcl, Hsh. simpl. rewrite Hreq. simpl.
  unfold log. simpl. by rewrite <- !app_assoc.
Qed.


(** The schedule of a call on a closed client: [do] registers nothing and
    puts the client-closed error in the call's channel. *)
Lemma do_then_recv_closed call (wr : option string) c :
  closing c || shutdown c = true → m c = false →
  chans c !! call_done call = Some (mkChan 1 []) →
  do_then_recv json_Marshal wr [] call c =
  Done tt (mkClient (calls c) (closing c) (shutdown c) (seqId c) (reqMutex c) false
             (<[call_done call := mkChan 1 [error_Response ErrClientClosed]]> (chans c))
             (conn_closed c)
             (trace c ++
                [EvLock MapMutex; EvUnlock MapMutex;
                 EvSend (call_done call) (error_Response ErrClientClosed)])).
Proof.
  intros Hclosed Hm Hch. unfold do_then_recv, Client_do, chan_send, Lock, Unlock.
  run_M. rewrite Hm. simpl. rewrite Hclosed. simpl. rewrite Hch. simpl.
  unfold log. simpl. by rewrite <- !app_assoc.
Qed.


(** A call on a closed client.  When [closing] or [shutdown] is set, [Call]
    with a well-formed name returns the client-closed error and leaves the
    destination alone; the call is not registered and nothing is encoded on
    the socket. *)
Theorem Client_Call_closed (method : string) (in_ : Value) (out : option Value)
    (wr : option string) c :
  two_parts method →
  closing c || shutdown c = true → m c = false →
  ∃ c', Client_Call json_Unmarshal method in_ out
          (do_then_recv json_Marshal wr []) c
        = Done (Some ErrClientClosed, out) c' ∧
        calls c' = calls c ∧
        closing c' = closing c ∧ shutdown c' = shutdown c ∧
        new_events c c' =
          [EvLock MapMutex; EvUnlock MapMutex;
           EvSend (fresh (dom (chans c))) (error_Response ErrClientClosed)].
Proof.
  intros Htwo Hclosed Hm.
  destruct (proj2 (parseCall_accepts method in_ c) Htwo) as (newCall & c1 & Hparse).
  destruct (parseCall_inv _ _ _ _ _ Hparse) as [Hcall Hc1].
  unfold Client_Call. run_M. rewrite Hparse.
  rewrite (do_then_recv_closed newCall wr c1);
    [|by subst c1..|subst; simpl; by rewrite lookup_insert_eq].
  subst newCall c1. unfold chan_recv. simpl. rewrite lookup_insert_eq.
  eexists. split; [reflexivity|]. simpl. split_and!; try done. by events_norm.
Qed.

(** A call whose write fails.  On a client that is not closed, with the
    mutexes free: when the write on the socket fails with a non-empty text,
    [Call] returns an error with that text and leaves the destination alone;
    the call was registered and is taken out of the map again. *)
Theorem Client_Call_write_error (method : string) (in_ : Value) (out : option Value)
    (e : string) c :
  let id := ((seqId c + 1) mod 2 ^ 32)%N in
  two_parts method → e ≠ "" →
  closing c = false → shutdown c = false → reqMutex c = false → m c = false →
  ∃ c', Client_Call json_Unmarshal method in_ out
          (do_then_recv json_Marshal (Some e) []) c
        = Done (Some e, out) c' ∧
        calls c' = delete id (calls c) ∧
        reqMutex c' = false ∧ m c' = false ∧
        ∃ req,
          req_Id req = id ∧ req_Method req = method ∧
          new_events c c' =
            [EvLock MapMutex; EvStore id; EvUnlock MapMutex;
             EvLock ReqMutex; EvEncode req; EvUnlock ReqMutex;
             EvLock MapMutex; EvDelete id; EvUnlock MapMutex;
             EvSend (fresh (dom (chans c))) (error_Response e)].
Proof.
  intros id Htwo He Hcl Hsh Hreq Hm.
  destruct (proj2 (parseCall_accepts method in_ c) Htwo) as (newCall & c1 & Hparse).
  destruct (parseCall_inv _ _ _ _ _ Hparse) as [Hcall Hc1].
  fold id in Hcall, Hc1.
  unfold Client_Call, do_then_recv. run_M. rewrite Hparse.
  subst newCall c1.
  unfold Client_do, send, chan_send, chan_recv, Lock, Unlock, map_store, map_delete,
    encoder_Encode.
  run_M. rewrite Hm. simpl. rewrite Hcl, Hsh. simpl. rewrite Hreq. simpl.
  repeat (rewrite lookup_insert_eq; simpl).
  eexists. split.
  { unfold Call_reply, is_empty. simpl. by rewrite bool_decide_eq_false_2. }
  simpl. rewrite delete_insert_eq. split_and!; try done.
  eexists. split; [|split]; [| |by events_norm]; done.
Qed.

(** Two calls under one id (the counter has gone round): [do] for the newer
    call replaces the entry of the older one, the Response for that id is put
    in the channel of the newer call, and the entry is removed; the channel
    of the older call has received nothing and no entry is left that could
    get it a Response. *)
Theorem Client_do_id_collision (old new : Call Value) resp c :
  calls c !! call_id new = Some old →
  call_done new ≠ call_done old →
  chans c !! call_done new = Some (mkChan 1 []) →
  closing c = false → shutdown c = false → reqMutex c = false → m c = false →
  resp_Id resp = call_id new →
  ∃ c1 c2,
    Client_do json_Marshal new None c = Done tt c1 ∧
    calls c1 !! call_id new = Some new ∧
    recv_step resp c1 = Done tt c2 ∧
    chans c2 !! call_done new = Some (mkChan 1 [resp]) ∧
    chans c2 !! call_done old = chans c !! call_done old ∧
    calls c2 !! call_id new = None.
Proof.
  intros Hold Hne Hch Hcl Hsh Hreq Hm Hid.
  rewrite Client_do_registers by done.
  do 2 eexists. split; [reflexivity|]. simpl.
  split; [by rewrite lookup_insert_eq|].
  unfold recv_step, map_lookup, chan_send, Lock, Unlock, map_delete. run_M.
  rewrite Hid, lookup_insert_eq. simpl. rewrite Hch. simpl.
  split; [reflexivity|]. simpl.
  rewrite lookup_insert_eq, lookup_insert_ne, lookup_delete_eq by done. done.
Qed.

(** *** What no operation undoes *)

#[local] Existing Instances M_ret M_bind.

Lemma only_grows_refl c : only_grows c c.
Proof. unfold only_grows. split_and!; try done. by eauto. Qed.

Lemma only_grows_trans c1 c2 c3 :
  only_grows c1 c2 → only_grows c2 c3 → only_grows c1 c3.
Proof.
  intros (Hcl & Hsh & Hcc & Htr & Hch) (Hcl' & Hsh' & Hcc' & Htr' & Hch').
  unfold only_grows. split_and!.
  - congruence.
  - by auto.
  - lia.
  - by etrans.
  - intros ch q Hq. destruct (Hch ch q Hq) as (q1 & Hq1 & Hcap1 & Hbuf1).
    destruct (Hch' ch q1 Hq1) as (q2 & Hq2 & Hcap2 & Hbuf2).
    exists q2. split_and!; [done | congruence | by etrans].
Qed.

Lemma grows_ret {A} (a : A) : grows (mret a : M Value A).
Proof. intros c. apply only_grows_refl. Qed.

Lemma grows_bind {A B} (ma : M Value A) (f : A → M Value B) :
  grows ma → (∀ a, grows (f a)) → grows (ma ≫= f).
Proof.
  intros Hma Hf c. specialize (Hma c). run_M.
  destruct (ma c) as [a c1|c1]; simpl in *; [|done].
  eapply only_grows_trans; [exact Hma|]. apply Hf.
Qed.

Lemma grows_gets {A} (f : Client Value → A) : grows (gets f).
Proof. intros c. apply only_grows_refl. Qed.

(** A state change that keeps [closing], the socket and the channels, does
    not clear [shutdown] and extends the trace. *)
Lemma only_grows_fields c c' :
  closing c' = closing c → (shutdown c = true → shutdown c' = true) →
  conn_closed c' = conn_closed c → trace c `prefix_of` trace c' →
  chans c' = chans c → only_grows c c'.
Proof.
  intros Hcl Hsh Hcc Htr Hch. unfold only_grows.
  split_and!; [done | done | lia | done |].
  intros ch q Hq. exists q. rewrite Hch. done.
Qed.

Lemma grows_Lock (l : lock) : grows (Lock (Value:=Value) l).
Proof.
  intros c. unfold Lock. destruct (held l c); simpl; [apply only_grows_refl|].
  destruct l; apply only_grows_fields; simpl; try done; by apply prefix_app_r.
Qed.

Lemma grows_Unlock (l : lock) : grows (Unlock (Value:=Value) l).
Proof.
  intros c. destruct l; apply only_grows_fields; simpl; try done;
    by apply prefix_app_r.
Qed.

Lemma grows_map_lookup (id : N) : grows (map_lookup (Value:=Value) id).
Proof. intros c. apply only_grows_fields; simpl; try done. by apply prefix_app_r. Qed.

Lemma grows_map_store (id : N) call : grows (map_store id call).
Proof. intros c. apply only_grows_fields; simpl; try done. by apply prefix_app_r. Qed.

Lemma grows_map_delete (id : N) : grows (map_delete (Value:=Value) id).
Proof. intros c. apply only_grows_fields; simpl; try done. by apply prefix_app_r. Qed.

Lemma grows_map_range : grows (map_range (Value:=Value)).
Proof. intros c. apply only_grows_fields; simpl; try done. by apply prefix_app_r. Qed.

Lemma grows_set_shutdown : grows (modify (set_shutdown (Value:=Value) true)).
Proof. intros c. by apply only_grows_fields. Qed.

Lemma grows_encoder_Encode (req : Request) (wr : option string) :
  grows (encoder_Encode (Value:=Value) req wr).
Proof. intros c. apply only_grows_fields; simpl; try done. by apply prefix_app_r. Qed.

Lemma grows_conn_Close : grows (conn_Close (Value:=Value)).
Proof.
  intros c. unfold only_grows. simpl. split_and!; try done; try lia.
  - by apply prefix_app_r.
  - by eauto.
Qed.

Lemma grows_atomic_AddUint32_seqId : grows (atomic_AddUint32_seqId (Value:=Value)).
Proof. intros c. by apply only_grows_fields. Qed.

Lemma grows_make_chan (cap : nat) : grows (make_chan (Value:=Value) cap).
Proof.
  intros c. unfold only_grows. simpl. split_and!; try done.
  intros ch q Hq. exists q. split; [|done].
  rewrite lookup_insert_ne; [done|]. intros <-.
  assert (fresh (dom (chans c)) ∉ dom (chans c)) as Hfresh by apply is_fresh.
  apply Hfresh. apply elem_of_dom. by eauto.
Qed.

Lemma grows_chan_send (ch : N) r : grows (chan_send (Value:=Value) ch r).
Proof.
  intros c. unfold chan_send.
  destruct (chans c !! ch) as [q|] eqn:Hq; simpl; [|apply only_grows_refl].
  destruct (length (chan_buf q) <? chan_cap q)%nat; simpl; [|apply only_grows_refl].
  unfold only_grows. simpl. split_and!; try done.
  - by apply prefix_app_r.
  - intros ch' q' Hq'. destruct (decide (ch = ch')) as [<-|Hne].
    + rewrite lookup_insert_eq. eexists. split; [done|]. simpl.
      rewrite Hq in Hq'. injection Hq' as <-. split; [done|]. by apply prefix_app_r.
    + rewrite lookup_insert_ne by done. by eauto.
Qed.

Lemma grows_forM_ {A} (xs : list A) (body : A → M Value unit) :
  (∀ x, grows (body x)) → grows (forM_ xs body).
Proof.
  intros Hbody. induction xs as [|x xs IH]; simpl.
  - apply grows_ret.
  - apply grows_bind; [apply Hbody | intros _; exact IH].
Qed.

(** Splits a program into its operations and closes each with its lemma. *)
Ltac grows_steps :=
  repeat first
    [ apply grows_ret | apply grows_gets
    | apply grows_Lock | apply grows_Unlock
    | apply grows_map_lookup | apply grows_map_store | apply grows_map_delete
    | apply grows_map_range | apply grows_set_shutdown
    | apply grows_encoder_Encode | apply grows_conn_Close
    | apply grows_atomic_AddUint32_seqId | apply grows_make_chan
    | apply grows_chan_send
    | apply grows_forM_; intros ?
    | apply grows_bind; [|intros ?]
    | match goal with
      | |- grows (if ?b then _ else _) => destruct b
      | |- grows (match ?x with _ => _ end) => destruct x
      end ].

Lemma grows_parseCall (method : string) (in_ : Value) : grows (parseCall method in_).
Proof. unfold parseCall. grows_steps. Qed.

Lemma grows_send call (wr : option string) : grows (send json_Marshal call wr).
Proof. unfold send. grows_steps. Qed.

Lemma grows_Client_do call (wr : option string) :
  grows (Client_do json_Marshal call wr).
Proof. unfold Client_do. grows_steps; apply grows_send. Qed.

Lemma grows_recv_step resp : grows (recv_step (Value:=Value) resp).
Proof. unfold recv_step. grows_steps. Qed.

Lemma grows_recv_shutdown (err : string) : grows (recv_shutdown (Value:=Value) err).
Proof. unfold recv_shutdown. grows_steps. Qed.

Lemma grows_recv (decoded : list Response) (err : string) :
  grows (recv (Value:=Value) decoded err).
Proof.
  unfold recv. apply grows_bind; [|intros _; apply grows_recv_shutdown].
  apply grows_forM_. intros resp. apply grows_recv_step.
Qed.

Lemma grows_Close : grows (Close (Value:=Value)).
Proof. unfold Close. grows_steps. Qed.

Lemma outcome_state_void {A} (o : outcome (Client Value) A) :
  outcome_state (void o) = outcome_state o.
Proof. by destruct o. Qed.

(** No operation of the tracker undoes anything, wherever it stops: the
    [closing] flag is never written, [shutdown] is never cleared, the socket
    is never reopened, the trace is only extended, and no channel is removed,
    resized or emptied. *)
Theorem tracker_only_grows (op : tracker_op Value) c :
  only_grows c (outcome_state (run_op json_Marshal op c)).
Proof.
  destruct op; simpl; rewrite ?outcome_state_void.
  - apply grows_parseCall.
  - apply grows_send.
  - apply grows_Client_do.
  - apply grows_recv_step.
  - apply grows_recv_shutdown.
  - apply grows_recv.
  - apply grows_Close.
Qed.

(** *** Locks *)

Lemma chan_send_outcome (ch : N) r c :
  match chan_send ch r c with
  | Done _ c1 => reqMutex c1 = reqMutex c ∧ m c1 = m c ∧
                 trace c1 = trace c ++ [EvSend ch r]
  | Blocked c1 => c1 = c
  end.
Proof.
  unfold chan_send. destruct (chans c !! ch) as [q|]; [|done].
  destruct (length (chan_buf q) <? chan_cap q)%nat; done.
Qed.

(** The fan-out loop, wherever it stops: it has sent to the first [k] calls,
    in order, and has left the mutexes alone. *)
Lemma forM_send_frame r (cs : list (Call Value)) c :
  let c' := outcome_state (forM_ cs (λ call, chan_send (call_done call) r) c) in
  reqMutex c' = reqMutex c ∧ m c' = m c ∧
  ∃ k, trace c' = trace c ++ ((λ call, EvSend (call_done call) r) <$> take k cs).
Proof.
  revert c. induction cs as [|call cs IH]; intros c; simpl.
  - split_and!; try done. exists 0%nat. simpl. by rewrite app_nil_r.
  - run_M. pose proof (chan_send_outcome (call_done call) r c) as Hsend.
    destruct (chan_send (call_done call) r c) as [[] c1|c1]; simpl.
    + destruct Hsend as (Hreq & Hm & Htr).
      destruct (IH c1) as (Hreq' & Hm' & k & Htr').
      split_and!; [congruence | congruence |].
      exists (S k). rewrite Htr', Htr, <- app_assoc. done.
    + subst c1. split_and!; try done. exists 0%nat. simpl. by rewrite app_nil_r.
Qed.

Lemma recv_loop_balanced (decoded : list Response) c c' :
  forM_ decoded recv_step c = Done tt c' →
  reqMutex c' = reqMutex c ∧ m c' = m c.
Proof.
  revert c. induction decoded as [|resp rest IH]; intros c; simpl.
  - by intros [= <-].
  - run_M. destruct (recv_step resp c) as [[] c1|c1] eqn:Hstep; [|done].
    intros Hrest. apply IH in Hrest as [-> ->].
    revert Hstep. unfold recv_step, map_lookup, chan_send, Lock, Unlock, map_delete.
    run_M. destruct (calls c !! resp_Id resp) as [call|]; simpl;
      [|by intros [= <-]].
    destruct (chans c !! call_done call) as [q|]; simpl; [|done].
    destruct (length (chan_buf q) <? chan_cap q)%nat; simpl; [|done].
    destruct (m c) eqn:Hm; simpl; [done|]. by intros [= <-].
Qed.

Lemma recv_shutdown_balanced (err : string) c c' :
  recv_shutdown err c = Done tt c' →
  reqMutex c' = reqMutex c ∧ m c' = m c.
Proof.
  unfold recv_shutdown, Lock, Unlock, map_range. run_M.
  destruct (reqMutex c) eqn:Hreq; simpl; [done|].
  destruct (m c) eqn:Hm; simpl; [done|].
  match goal with
  | |- context [forM_ ?cs ?body ?c1] => destruct (forM_ cs body c1) as [[] c2|c2]
  end; simpl; [|done].
  by intros [= <-].
Qed.

(** An operation that runs to its end leaves both mutexes as it found them:
    none returns holding a lock. *)
Theorem tracker_locks_balanced (op : tracker_op Value) c c' :
  run_op json_Marshal op c = Done tt c' →
  reqMutex c' = reqMutex c ∧ m c' = m c.
Proof.
  destruct op as [method in_|call wr|call wr|resp|err|decoded err|]; simpl.
  - unfold parseCall. destruct (_ || _ || _); run_M; by intros [= <-].
  - unfold send, Lock, Unlock, encoder_Encode. run_M.
    destruct (reqMutex c) eqn:Hreq; simpl; [done|]. by intros [= <-].
  - unfold Client_do, send, Lock, Unlock, map_store, map_delete, encoder_Encode,
      chan_send. run_M.
    destruct (m c) eqn:Hm; simpl; [done|].
    destruct (closing c || shutdown c); simpl.
    + destruct (chans c !! call_done call) as [q|]; simpl; [|done].
      destruct (length (chan_buf q) <? chan_cap q)%nat; simpl; [|done].
      by intros [= <-].
    + destruct (reqMutex c) eqn:Hreq; simpl; [done|].
      destruct wr as [e|]; simpl; [|by intros [= <-]].
      destruct (chans c !! call_done call) as [q|]; simpl; [|done].
      destruct (length (chan_buf q) <? chan_cap q)%nat; simpl; [|done].
      by intros [= <-].
  - intros Hstep. apply (recv_loop_balanced [resp]). simpl. run_M.
    by rewrite Hstep.
  - apply recv_shutdown_balanced.
  - unfold recv. run_M.
    destruct (forM_ decoded recv_step c) as [[] c1|c1] eqn:Hloop; [|done].
    intros Hsh. apply recv_shutdown_balanced in Hsh as [-> ->].
    by apply (recv_loop_balanced decoded).
  - unfold Close, Lock, Unlock, conn_Close. run_M.
    destruct (m c) eqn:Hm; simpl; [done|].
    destruct (shutdown c || closing c); simpl; by intros [= <-].
Qed.

Lemma recv_shutdown_guarded (err : string) c :
  let c' := outcome_state (recv_shutdown err c) in
  map_guarded false (new_events c c') = true ∧
  send_before_map false (new_events c c') = true.
Proof.
  unfold recv_shutdown, Lock, Unlock, map_range. run_M.
  destruct (reqMutex c) eqn:Hreq; simpl; [by events_norm|].
  destruct (m c) eqn:Hm; simpl; [by events_norm|].
  match goal with
  | |- context [forM_ ?cs ?body ?c1] =>
      destruct (forM_send_frame (error_Response err) cs c1) as (_ & _ & k & Htr);
      destruct (forM_ cs body c1) as [[] c2|c2]
  end; simpl in *.
  - unfold new_events. simpl. rewrite Htr, <- !app_assoc. simpl.
    rewrite drop_app_length. simpl.
    by rewrite map_guarded_sends, send_before_map_sends.
  - unfold new_events. rewrite Htr, <- !app_assoc. simpl.
    rewrite drop_app_length. simpl.
    rewrite <- (app_nil_r (_ <$> take k _)).
    by rewrite map_guarded_sends, send_before_map_sends.
Qed.

(** Every operation other than a turn of the receive loop keeps the lock
    discipline, wherever it stops: it reads and writes the map of calls only
    while it holds the map lock, and it never takes the send lock while it
    holds the map lock. *)
Theorem tracker_lock_discipline (op : tracker_op Value) c :
  not_recv_turn op = true →
  let c' := outcome_state (run_op json_Marshal op c) in
  map_guarded false (new_events c c') = true ∧
  send_before_map false (new_events c c') = true.
Proof.
  destruct op as [method in_|call wr|call wr|resp|err|decoded err|]; simpl;
    intros Hop; rewrite ?outcome_state_void.
  - unfold parseCall. destruct (_ || _ || _); run_M; by events_norm.
  - unfold send, Lock, Unlock, encoder_Encode. run_M.
    destruct (reqMutex c); simpl; by events_norm.
  - apply Client_do_guarded.
  - done.
  - apply recv_shutdown_guarded.
  - apply bool_decide_eq_true in Hop as ->. apply recv_shutdown_guarded.
  - unfold Close, Lock, Unlock, conn_Close. run_M.
    destruct (m c); simpl; [by events_norm|].
    destruct (shutdown c || closing c); simpl; by events_norm.
Qed.

(** *** After the receive loop has ended *)

Lemma recv_ends_shut (decoded : list Response) (err : string) c c1 :
  recv decoded err c = Done tt c1 →
  shutdown c1 = true ∧ reqMutex c1 = false ∧ m c1 = false.
Proof.
  unfold recv. run_M.
  destruct (forM_ decoded recv_step c) as [[] c0|c0]; [|done].
  unfold recv_shutdown, Lock, Unlock, map_range. run_M.
  destruct (reqMutex c0) eqn:Hreq; simpl; [done|].
  destruct (m c0) eqn:Hm; simpl; [done|].
  match goal with
  | |- context [forM_ ?cs ?body ?c3] =>
      pose proof (grows_forM_ cs body
                    (λ call, grows_chan_send (call_done call) (error_Response err)) c3)
        as (_ & Hsh & _);
      destruct (forM_ cs body c3) as [[] c2|c2]
  end; simpl in *; [|done].
  intros [= <-]. simpl. split; [by apply Hsh | done].
Qed.

(** Once [recv] has returned, whatever it decoded before the failure, the
    client is shut down for good: every later [Call] with a well-formed name
    returns the client-closed error, registers nothing and encodes nothing on
    the socket. *)
Theorem Call_after_recv (decoded : list Response) (err : string) c c1
    (method : string) (in_ : Value) (out : option Value) (wr : option string) :
  recv decoded err c = Done tt c1 →
  two_parts method →
  ∃ c2, Client_Call json_Unmarshal method in_ out
          (do_then_recv json_Marshal wr []) c1
        = Done (Some ErrClientClosed, out) c2 ∧
        calls c2 = calls c1 ∧
        shutdown c2 = true ∧
        ∀ req, EvEncode req ∉ new_events c1 c2.
Proof.
  intros (Hsh & Hreq & Hm)%recv_ends_shut Htwo.
  destruct (proj2 (parseCall_accepts method in_ c1) Htwo) as (newCall & c3 & Hparse).
  destruct (parseCall_inv _ _ _ _ _ Hparse) as [Hcall Hc3].
  unfold Client_Call. run_M. rewrite Hparse.
  rewrite (do_then_recv_closed newCall wr c3);
    [|subst c3; simpl; by rewrite Hsh, orb_true_r|by subst c3
     |subst; simpl; by rewrite lookup_insert_eq].
  subst newCall c3. unfold chan_recv. simpl. rewrite lookup_insert_eq.
  eexists. split; [reflexivity|]. simpl. split_and!; try done.
  intros req. events_norm. intros Hin.
  repeat (apply elem_of_cons in Hin as [Hin|Hin]; [discriminate Hin|]).
  by apply elem_of_nil in Hin.
Qed.

End CallTrackerMoreFacts.

(* ===================================================================== *)
(** ** A call served by a session *)
(* ===================================================================== *)

Section EndToEnd.

Context {Value : Type}.
Variable json_Marshal : Value → string + string.
Variable json_Unmarshal : string → Value → Value * option string.
Variable reflect_Zero : rtype → Value.


End EndToEnd.

(* ===================================================================== *)
(** ** The further theorems at concrete inputs *)
(* ===================================================================== *)

Lemma two_parts_Arith_Same : two_parts "Arith.Same".
Proof. exists "Arith", "Same". by split_and!. Qed.

Lemma Register_installs_witness :
  ∃ svc, getService Sample.server "Arith" = inl svc ∧
         is_Some (methodMap svc !! "Same").
Proof.
  destruct (Register_installs Sample.DecodeRune Sample.IsUpper
              (NewServer ":8080") Sample.arith)
    as (svc & Hget & _ & _ & _ & Hhas & _); [vm_compute; reflexivity|].
  exists svc. split; [exact Hget|].
  apply (Hhas Sample.Same); [|vm_compute; reflexivity].
  unfold Sample.arith. simpl. rewrite !elem_of_cons.
  right; right; right; left. reflexivity.
Defined.

Lemma built_registry_invariant_witness :
  methodMap Sample.arith_service ≠ ∅.
Proof.
  destruct (built_registry_invariant Sample.DecodeRune Sample.IsUpper
              Sample.server "Arith" Sample.arith_service)
    as (_ & _ & Hne & _);
    [apply built_Register, built_NewServer | vm_compute; reflexivity | exact Hne].
Defined.


Lemma Connection_do_one_response_witness :
  ∃ r, conn_sent (write_Response Sample.connection (mkResponse 7 "12" "")) = [r] ∧
       resp_Id r = 7%N.
Proof.
  destruct (Connection_do_one_response Sample.Marshal Sample.Unmarshal Sample.Zero
              Sample.connection (mkRequest 7 "Arith.Same" "12")
              (write_Response Sample.connection (mkResponse 7 "12" "")))
    as (r & Hsent & Hid & _); [vm_compute; reflexivity|].
  exists r. split; [exact Hsent | exact Hid].
Defined.

Lemma Connection_do_unknown_witness :
  Connection_do Sample.Marshal Sample.Unmarshal Sample.Zero
                Sample.connection (mkRequest 2 "Nope.Same" "7")
  = Some (replyError Sample.connection 2 "serviceName 'Nope' not exists").
Proof.
  destruct (Connection_do_unknown Sample.Marshal Sample.Unmarshal Sample.Zero
              Sample.connection (mkRequest 2 "Nope.Same" "7") "Nope" "Same" [])
    as [Hsvc _]; [reflexivity | discriminate | discriminate |].
  apply Hsvc. vm_compute. reflexivity.
Defined.

Lemma Connection_do_success_witness :
  Connection_do Sample.Marshal Sample.Unmarshal Sample.Zero
                Sample.connection (mkRequest 7 "Arith.Same" "12")
  = Some (write_Response Sample.connection (mkResponse 7 "12" "")).
Proof.
  destruct (Connection_do_success Sample.Marshal Sample.Unmarshal Sample.Zero
              Sample.connection (mkRequest 7 "Arith.Same" "12") "Arith" "Same"
              Sample.arith_service
              (mkServiceMethod Sample.Same Sample.t_int (TPtr "" "" Sample.t_int))
              Sample.t_int "12")
    as (body & Hdo & Hbody & _);
    [reflexivity | discriminate | discriminate | vm_compute; reflexivity
    | vm_compute; reflexivity | reflexivity | reflexivity |].
  rewrite Hdo. rewrite (Hbody "12"); reflexivity.
Defined.

Lemma parseCall_fresh_witness :
  call_id Sample2.call2 ≠ call_id Sample.call1 ∧
  call_done Sample2.call2 ≠ call_done Sample.call1 ∧
  chans Sample.client_parsed !! call_done Sample.call1 = Some (mkChan 1 []).
Proof.
  destruct (parseCall_fresh "Arith.Same" "Arith.Reject" "7" "3"
              new_Client Sample.client_parsed Sample2.client_parsed2
              Sample.call1 Sample2.call2)
    as (_ & _ & _ & _ & _ & Hch & _ & _ & Hid & Hdone);
    [vm_compute; reflexivity | vm_compute; reflexivity |].
  split; [exact Hid|]. split; [exact Hdone | exact Hch].
Defined.

Lemma recv_step_unknown_id_witness :
  ∃ c', recv_step (mkResponse 9 "7" "") Sample.client1 = Done tt c' ∧
        chans c' = chans Sample.client1 ∧ calls c' = calls Sample.client1.
Proof.
  destruct (recv_step_unknown_id (mkResponse 9 "7" "") Sample.client1)
    as (c' & Hstep & Hcalls & Hchans & _); [vm_compute; reflexivity|].
  exists c'. split; [exact Hstep|]. split; [exact Hchans | exact Hcalls].
Defined.

Lemma recv_step_no_cross_delivery_witness :
  ∃ c', recv_step (mkResponse 1 "7" "") Sample2.client2 = Done tt c' ∧
        chans c' !! 0%N = Some (mkChan 1 [mkResponse 1 "7" ""]) ∧
        chans c' !! 1%N = Some (mkChan 1 []).
Proof.
  destruct (recv_step_no_cross_delivery (mkResponse 1 "7" "") Sample2.client2
              Sample.call1 (mkChan 1 []))
    as (c' & Hstep & Hch & Hother & _);
    [vm_compute; reflexivity | vm_compute; reflexivity | simpl; lia | reflexivity |].
  exists c'. split; [exact Hstep|]. split; [exact Hch|].
  rewrite (Hother 1%N); [vm_compute; reflexivity | discriminate].
Defined.


Lemma Client_Call_closed_witness :
  ∃ c', Client_Call Sample.Unmarshal "Arith.Same" "7" (Some "0")
          (do_then_recv Sample.Marshal None []) Sample2.client_shut
        = Done (Some ErrClientClosed, Some "0") c' ∧
        calls c' = calls Sample2.client_shut.
Proof.
  destruct (Client_Call_closed Sample.Marshal Sample.Unmarshal
              "Arith.Same" "7" (Some "0") None Sample2.client_shut)
    as (c' & Hcall & Hcalls & _);
    [exact two_parts_Arith_Same | reflexivity | reflexivity |].
  exists c'. split; [exact Hcall | exact Hcalls].
Defined.

Lemma Client_Call_write_error_witness :
  ∃ c', Client_Call Sample.Unmarshal "Arith.Same" "7" (Some "0")
          (do_then_recv Sample.Marshal (Some "write: broken pipe") []) new_Client
        = Done (Some "write: broken pipe", Some "0") c' ∧
        calls c' = delete 1%N ∅.
Proof.
  destruct (Client_Call_write_error Sample.Marshal Sample.Unmarshal
              "Arith.Same" "7" (Some "0") "write: broken pipe" new_Client)
    as (c' & Hcall & Hcalls & _);
    [exact two_parts_Arith_Same | discriminate | reflexivity | reflexivity
    | reflexivity | reflexivity |].
  exists c'. split; [exact Hcall | exact Hcalls].
Defined.

Lemma Client_do_id_collision_witness :
  ∃ c1 c2,
    Client_do Sample.Marshal Sample2.call1b None Sample2.client2 = Done tt c1 ∧
    recv_step (mkResponse 1 "7" "") c1 = Done tt c2 ∧
    chans c2 !! 1%N = Some (mkChan 1 [mkResponse 1 "7" ""]) ∧
    chans c2 !! 0%N = Some (mkChan 1 []).
Proof.
  destruct (Client_do_id_collision Sample.Marshal Sample.call1 Sample2.call1b
              (mkResponse 1 "7" "") Sample2.client2)
    as (c1 & c2 & Hdo & _ & Hstep & Hnew & Hold & _);
    [vm_compute; reflexivity | discriminate | vm_compute; reflexivity
    | reflexivity | reflexivity | reflexivity | reflexivity | reflexivity |].
  exists c1, c2. split; [exact Hdo|]. split; [exact Hstep|].
  split; [exact Hnew | exact Hold].
Defined.

Lemma tracker_locks_balanced_witness :
  reqMutex Sample.client_sent = reqMutex Sample.client_parsed ∧
  m Sample.client_sent = m Sample.client_parsed.
Proof.
  apply (tracker_locks_balanced Sample.Marshal (OpDo Sample.call1 None)
           Sample.client_parsed Sample.client_sent).
  vm_compute. reflexivity.
Defined.

Lemma tracker_lock_discipline_witness :
  map_guarded false
    (new_events Sample.client1 (outcome_state (recv_shutdown "EOF" Sample.client1)))
  = true.
Proof.
  destruct (tracker_lock_discipline Sample.Marshal (OpRecvShutdown "EOF")
              Sample.client1) as [Hguard _]; [reflexivity|].
  exact Hguard.
Defined.

Lemma Call_after_recv_witness :
  ∃ c2, Client_Call Sample.Unmarshal "Arith.Same" "7" None
          (do_then_recv Sample.Marshal None []) Sample2.client_shut
        = Done (Some ErrClientClosed, None) c2 ∧
        calls c2 = calls Sample2.client_shut.
Proof.
  destruct (Call_after_recv Sample.Marshal Sample.Unmarshal [] "EOF"
              new_Client Sample2.client_shut "Arith.Same" "7" None None)
    as (c2 & Hcall & Hcalls & _);
    [vm_compute; reflexivity | exact two_parts_Arith_Same |].
  exists c2. split; [exact Hcall | exact Hcalls].
Defined.

